(** * text-summarizer: the summarization strategies and their fallback contract

    A shallow embedding of [src/text-summarizer.js].  JavaScript strings are
    sequences of UTF-16 code units; the regular expression of
    [localSummarize] has no [u] flag, so it works on code units too. *)

From Equations Require Import Equations.
From Equations.Prop Require Import Logic.
From Stdlib Require Import String Ascii.
From Stdlib Require Import List NArith ZArith Arith Lia Bool.
From Stdlib Require Import Numbers.DecimalString.
From Stdlib Require Import Floats.SpecFloat.
Import ListNotations.

(** ** JavaScript strings *)

Module JS.

Definition char16 := N.
Definition jsstring := list char16.

(** A string literal of the source (ASCII only), as code units. *)
Fixpoint lit (s : string) : jsstring :=
  match s with
  | EmptyString => []
  | String c s' => N_of_ascii c :: lit s'
  end.

(** Truthiness of a string: only the empty string is falsy. *)
Definition truthy (s : jsstring) : bool :=
  match s with [] => false | _ :: _ => true end.

(** The [WhiteSpace] and [LineTerminator] code points of ECMAScript: what
    [\s] matches and what [String.prototype.trim] strips. *)
Definition is_space (c : char16) : bool :=
  ((9 <=? c) && (c <=? 13)          (* TAB, LF, VT, FF, CR *)
   || (c =? 32)                     (* SPACE *)
   || (c =? 160)                    (* NO-BREAK SPACE *)
   || (c =? 5760)                   (* U+1680 *)
   || (8192 <=? c) && (c <=? 8202)  (* U+2000 .. U+200A *)
   || (c =? 8232) || (c =? 8233)    (* LINE / PARAGRAPH SEPARATOR *)
   || (c =? 8239)                   (* U+202F *)
   || (c =? 8287)                   (* U+205F *)
   || (c =? 12288)                  (* U+3000 *)
   || (c =? 65279))%N.              (* U+FEFF *)

Fixpoint dropWhile (p : char16 -> bool) (s : jsstring) : jsstring :=
  match s with
  | c :: s' => if p c then dropWhile p s' else s
  | [] => []
  end.

Definition trimStart (s : jsstring) : jsstring := dropWhile is_space s.
Definition trimEnd (s : jsstring) : jsstring := rev (dropWhile is_space (rev s)).

(** [String.prototype.trim] *)
Definition trim (s : jsstring) : jsstring := trimEnd (trimStart s).

(** [Array.prototype.join] on an array of strings *)
Fixpoint join (sep : jsstring) (l : list jsstring) : jsstring :=
  match l with
  | [] => []
  | [x] => x
  | x :: l' => x ++ sep ++ join sep l'
  end.

(** [Array.prototype.slice(0, n)] *)
Definition slice0 (n : nat) (l : list jsstring) : list jsstring := firstn n l.

End JS.
Import JS.

(** ** The sentence pattern [/[^.!?]+[.!?]*\s*/g] *)

Module Regex.

(** The class [[.!?]]. *)
Definition is_term (c : char16) : bool :=
  ((c =? 46) || (c =? 33) || (c =? 63))%N.

(** The class [[^.!?]]. *)
Definition non_term (c : char16) : bool := negb (is_term c).

(** The pattern is run as a backtracking matcher: each piece takes the input
    left to read and a continuation [k] for the rest of the pattern, and
    answers with the input left after the whole match, or [None] when every
    alternative failed. *)

(** Greedy [C*] for a character class [C]: take one more unit when possible,
    and give it back when the continuation then fails. *)
Fixpoint star (p : char16 -> bool) (s : jsstring)
    (k : jsstring -> option jsstring) : option jsstring :=
  match s with
  | c :: s' =>
      if p c then
        match star p s' k with
        | Some r => Some r
        | None => k s
        end
      else k s
  | [] => k s
  end.

(** Greedy [C+]: one unit of the class, then [C*]. *)
Definition plus (p : char16 -> bool) (s : jsstring)
    (k : jsstring -> option jsstring) : option jsstring :=
  match s with
  | c :: s' => if p c then star p s' k else None
  | [] => None
  end.

(** The whole pattern, tried at the start of [s]. *)
Definition sentence (s : jsstring) : option jsstring :=
  plus non_term s (fun s1 => star is_term s1 (fun s2 => star is_space s2 Some)).

(** What the greedy reading consumes: a run of non-terminators, the run of
    terminators after it, the run of white space after that. *)
Definition after_fragment (s : jsstring) : jsstring :=
  dropWhile is_space (dropWhile is_term (dropWhile non_term s)).

Lemma star_total p s k :
  (forall r, k r <> None) -> star p s k = k (dropWhile p s).
Proof.
  intros Hk. induction s as [|c s IH]; simpl; [reflexivity|].
  destruct (p c); [|reflexivity].
  rewrite IH. destruct (k (dropWhile p s)) eqn:E; [reflexivity|].
  exfalso. exact (Hk _ E).
Qed.

Lemma dropWhile_length p s : length (dropWhile p s) <= length s.
Proof.
  induction s as [|c s IH]; simpl; [lia|]. destruct (p c); simpl; lia.
Qed.

(** No backtracking ever happens: the continuation of each quantifier cannot
    fail, so the pattern matches at [s] exactly when [s] starts with a
    non-terminator and it then consumes the three greedy runs. *)
Lemma sentence_greedy s :
  sentence s =
  match s with
  | c :: _ => if non_term c then Some (after_fragment s) else None
  | [] => None
  end.
Proof.
  unfold sentence, plus, after_fragment. destruct s as [|c s]; [reflexivity|].
  simpl. destruct (non_term c); [|reflexivity].
  rewrite star_total.
  - rewrite star_total.
    + rewrite star_total; [reflexivity | discriminate].
    + intros r. rewrite star_total; discriminate.
  - intros r. rewrite star_total.
    + rewrite star_total; discriminate.
    + intros r'. rewrite star_total; discriminate.
Qed.

Lemma sentence_shorter s rest : sentence s = Some rest -> length rest < length s.
Proof.
  rewrite sentence_greedy. destruct s as [|c s]; [discriminate|].
  destruct (non_term c) eqn:E; [|discriminate].
  intros [= <-]. unfold after_fragment. simpl. rewrite E.
  pose proof (dropWhile_length is_space (dropWhile is_term (dropWhile non_term s))).
  pose proof (dropWhile_length is_term (dropWhile non_term s)).
  pose proof (dropWhile_length non_term s). lia.
Qed.

(** The text a match consumed, given the input left after it. *)
Definition consumed (s rest : jsstring) : jsstring :=
  firstn (length s - length rest) s.

(** The loop of [String.prototype.match] with a global pattern: [s] is the
    text from [lastIndex] on.  A match is collected and [lastIndex] moves to
    its end; where the pattern does not match, [lastIndex] moves on by one
    code unit.  (A match is never empty here, so the empty-match rule of the
    loop is never needed.) *)
Equations? matches (s : jsstring) : list jsstring by wf (length s) lt :=
  matches [] := [];
  matches (c :: s') with inspect (sentence (c :: s')) := {
    | exist _ (Some rest) _ => consumed (c :: s') rest :: matches rest;
    | exist _ None _ => matches s' }.
Proof.
  exact (sentence_shorter (c :: s') rest e).
Qed.

(** [text.match(re)]: [null] when there is no match at all. *)
Definition match_g (text : jsstring) : option (list jsstring) :=
  match matches text with
  | [] => None
  | l => Some l
  end.

(** The number of sentence terminators in a text. *)
Definition count_term (s : jsstring) : nat := length (filter is_term s).

End Regex.

(** ** The result records *)

Record TokenUsage := mkUsage {
  prompt_tokens : N;
  completion_tokens : N;
  total_tokens : N
}.

Record SummaryResult := mkResult {
  summary : jsstring;
  usage : TokenUsage
}.

Definition zero_usage : TokenUsage := mkUsage 0 0 0.

(** ** The Local strategy *)

(** [text.match(/[^.!?]+[.!?]*\s*/g) || [text]] *)
Definition sentences_of (text : jsstring) : list jsstring :=
  match Regex.match_g text with
  | Some l => l
  | None => [text]
  end.

(** [sentences.slice(0, 3).join(' ').trim()] *)
Definition selection_of (text : jsstring) : jsstring :=
  trim (join (lit " ") (slice0 3 (sentences_of text))).

(** The summary is [selection || text.trim()]. *)
Definition localSummarize (text : jsstring) : SummaryResult :=
  let selection := selection_of text in
  mkResult (if truthy selection then selection else trim text) zero_usage.

(** ** The Local strategy, with the state of the pattern object

    The same function once more, one level down: a pattern with the [g] flag
    is an object whose [lastIndex] says where the next search starts, and
    [String.prototype.match] works by reading and writing it.  Objects live
    in a heap that outlasts a call, so that state left behind by one call is
    there for the next one to see. *)

Record RegExp := mkRegExp { lastIndex : nat }.

Definition Heap := list RegExp.
Definition Address := nat.

Definition heap_get (h : Heap) (a : Address) : option RegExp := nth_error h a.

Fixpoint heap_set (h : Heap) (a : Address) (rx : RegExp) : Heap :=
  match h, a with
  | [], _ => []
  | _ :: h', O => rx :: h'
  | x :: h', S a' => x :: heap_set h' a' rx
  end.

(** A new object gets the next free address. *)
Definition heap_alloc (h : Heap) (rx : RegExp) : Address * Heap :=
  (length h, h ++ [rx]).

(** The search of [RegExpBuiltinExec]: the pattern is tried where [s] starts
    and then one code unit further each time it fails; the answer is the
    match and the input left after it. *)
Fixpoint search (s : jsstring) : option (jsstring * jsstring) :=
  match Regex.sentence s with
  | Some rest => Some (Regex.consumed s rest, rest)
  | None =>
      match s with
      | [] => None
      | _ :: s' => search s'
      end
  end.

(** [RegExpBuiltinExec] for a global pattern: the search starts at
    [lastIndex]; a match moves [lastIndex] to its end, a failure sets it back
    to 0.  [None] is a fault: no object at the address. *)
Definition regexp_exec (a : Address) (text : jsstring) (h : Heap)
  : option (option jsstring * Heap) :=
  match heap_get h a with
  | None => None
  | Some rx =>
      if length text <? lastIndex rx then Some (None, heap_set h a (mkRegExp 0))
      else
        match search (skipn (lastIndex rx) text) with
        | None => Some (None, heap_set h a (mkRegExp 0))
        | Some (m, rest) =>
            Some (Some m, heap_set h a (mkRegExp (length text - length rest)))
        end
  end.

(** After an empty match [lastIndex] moves on by one. *)
Definition advance_if_empty (a : Address) (m : jsstring) (h : Heap) : option Heap :=
  if truthy m then Some h
  else
    match heap_get h a with
    | None => None
    | Some rx => Some (heap_set h a (mkRegExp (S (lastIndex rx))))
    end.

(** The loop of [RegExp.prototype[Symbol.match]]: matches are collected in
    [A] until [regexp_exec] finds none; the answer is then [null] if [A] is
    empty.  [None] is a fault or the end of [fuel]. *)
Fixpoint match_loop (fuel : nat) (a : Address) (text : jsstring)
    (A : list jsstring) (h : Heap) : option (option (list jsstring) * Heap) :=
  match fuel with
  | O => None
  | S fuel' =>
      match regexp_exec a text h with
      | None => None
      | Some (None, h') =>
          Some (match A with [] => None | _ :: _ => Some A end, h')
      | Some (Some m, h') =>
          match advance_if_empty a m h' with
          | None => None
          | Some h'' => match_loop fuel' a text (A ++ [m]) h''
          end
      end
  end.

(** [text.match(rx)] for the global pattern at address [a]: [lastIndex] is
    set to 0, then the loop runs.  Every turn of the loop but the last moves
    [lastIndex] forward, so two turns more than the text has code units are
    enough. *)
Definition symbol_match (a : Address) (text : jsstring) (h : Heap)
  : option (option (list jsstring) * Heap) :=
  match heap_get h a with
  | None => None
  | Some _ => match_loop (S (S (length text))) a text [] (heap_set h a (mkRegExp 0))
  end.

(** [localSummarize], run on a heap: evaluating the pattern literal makes a
    new object with [lastIndex] 0; the rest is as before. *)
Definition localSummarize_run (text : jsstring) (h : Heap)
  : option (SummaryResult * Heap) :=
  let (rx, h1) := heap_alloc h (mkRegExp 0) in
  match symbol_match rx text h1 with
  | None => None
  | Some (found, h2) =>
      let sentences := match found with Some l => l | None => [text] end in
      let selection := trim (join (lit " ") (slice0 3 sentences)) in
      Some (mkResult (if truthy selection then selection else trim text) zero_usage, h2)
  end.

(** ** The world outside: console, network, file system, standard input *)

Record Error := mkError {
  code : option jsstring;
  message : jsstring
}.

Record Message := mkMessage {
  role : jsstring;
  content : jsstring
}.

(** The argument of [openai.chat.completions.create]. *)
Record Request := mkRequest {
  model : jsstring;
  messages : list Message;
  temperature : N * N;   (* numerator, denominator *)
  max_tokens : N
}.

(** What the endpoint answers: the choices and, when present, the usage. *)
Record Completion := mkCompletion {
  choices : list Message;
  completion_usage : option TokenUsage
}.

(** A line on standard output or standard error; or an [Error] object that
    [console.error] was given alone: the runtime prints its inspection (name,
    message, stack and further properties), whose text is not the
    program's. *)
Inductive Output :=
| Stdout (line : jsstring)
| Stderr (line : jsstring)
| StderrInspect (err : Error).

(** What the process has done so far, oldest first. *)
Record World := mkWorld {
  console : list Output;
  network : list Request
}.

Record Client := mkClient { apiKey : jsstring }.

Record Env := mkEnv {
  OPENAI_API_KEY : option jsstring;                       (* process.env *)
  endpoint : list Request -> Request -> Error + Completion; (* the hosted service *)
  argv : list jsstring;                                   (* process.argv *)
  readFileSync : jsstring -> Error + jsstring;            (* fs, with 'utf8' *)
  stdin_lines : list jsstring;                            (* lines until the stream closes *)
  stdin_error : option Error                              (* how the stream ends *)
}.

(** A computation returns, throws, or ends the process with [process.exit]. *)
Inductive Outcome (A : Type) :=
| Ok (a : A)
| Throw (e : Error)
| Exit (status : N).
Arguments Ok {A} a.
Arguments Throw {A} e.
Arguments Exit {A} status.

Definition M (A : Type) := World -> Outcome A * World.

Definition ret {A} (a : A) : M A := fun w => (Ok a, w).

Definition bind {A B} (m : M A) (k : A -> M B) : M B := fun w =>
  match m w with
  | (Ok a, w') => k a w'
  | (Throw e, w') => (Throw e, w')
  | (Exit n, w') => (Exit n, w')
  end.

Definition throw {A} (e : Error) : M A := fun w => (Throw e, w).

(** [process.exit(n)]: nothing after it runs, no handler catches it. *)
Definition process_exit {A} (n : N) : M A := fun w => (Exit n, w).

(** [try { m } catch (err) { h err }] *)
Definition try_catch {A} (m : M A) (h : Error -> M A) : M A := fun w =>
  match m w with
  | (Throw e, w') => h e w'
  | r => r
  end.

Definition console_log (line : jsstring) : M unit := fun w =>
  (Ok tt, mkWorld (console w ++ [Stdout line]) (network w)).

Definition console_error (line : jsstring) : M unit := fun w =>
  (Ok tt, mkWorld (console w ++ [Stderr line]) (network w)).

(** [console.error(err)] for a caught error. *)
Definition console_error_inspect (err : Error) : M unit := fun w =>
  (Ok tt, mkWorld (console w ++ [StderrInspect err]) (network w)).

Declare Scope js_scope.
Delimit Scope js_scope with js.
Notation "x <- m ;; k" := (bind m (fun x => k))
  (at level 61, m at next level, right associativity) : js_scope.
Notation "m ;; k" := (bind m (fun _ => k))
  (at level 61, right associativity) : js_scope.
Open Scope js_scope.

(** ** The Remote strategy *)

(** [const openai = process.env.OPENAI_API_KEY ? new OpenAI({...}) : null] *)
Definition openai (env : Env) : option Client :=
  match OPENAI_API_KEY env with
  | Some key => if truthy key then Some (mkClient key) else None
  | None => None
  end.

(** One network call: the request goes out, the endpoint answers or fails. *)
Definition chat_completions_create (env : Env) (c : Client) (req : Request)
  : M Completion := fun w =>
  let w' := mkWorld (console w) (network w ++ [req]) in
  match endpoint env (network w) req with
  | inl e => (Throw e, w')
  | inr completion => (Ok completion, w')
  end.

Definition system_prompt : jsstring :=
  lit "You are a helpful assistant that creates concise summaries. Generate exactly 3 sentences that capture the key points of the text.".

Definition user_prompt (text : jsstring) : jsstring :=
  lit "Please summarize the following text in exactly 3 sentences:" ++ [10; 10]%N ++ text.

Definition request_for (text : jsstring) : Request :=
  mkRequest (lit "gpt-3.5-turbo")
            [mkMessage (lit "system") system_prompt;
             mkMessage (lit "user") (user_prompt text)]
            (7, 10)%N 300%N.

(** Reading a property of [null] or [undefined]. *)
Definition TypeError : Error := mkError None (lit "TypeError").

(** The call is awaited; reading [choices[0].message.content] of an answer
    without choices throws.  A missing [usage] is replaced by zeros. *)
Definition summarizeWithOpenAI (env : Env) (text : jsstring) : M SummaryResult :=
  match openai env with
  | None => throw TypeError
  | Some client =>
      completion <- chat_completions_create env client (request_for text) ;;
      match choices completion with
      | [] => throw TypeError
      | first :: _ =>
          ret (mkResult (content first)
                        (match completion_usage completion with
                         | Some u => u
                         | None => mkUsage 0 0 0
                         end))
      end
  end.

(** ** Orchestration *)

(** Remote first when there is a client, Local when it throws; Local alone
    when there is none. *)
Definition summarizeText (env : Env) (text : jsstring) : M SummaryResult :=
  match openai env with
  | Some _ =>
      try_catch (summarizeWithOpenAI env text)
                (fun err => ret (localSummarize text))
  | None => ret (localSummarize text)
  end.

(** ** The report *)

(** A number of code units or tokens, printed in decimal. *)
Definition of_N (n : N) : jsstring := lit (NilEmpty.string_of_uint (N.to_uint n)).

(** [s.length] *)
Definition len (s : jsstring) : N := N.of_nat (length s).

(** The maximal runs of white space in [s]; [in_run] tells that the unit
    before was white space. *)
Fixpoint ws_runs (in_run : bool) (s : jsstring) : N :=
  match s with
  | [] => 0
  | c :: s' =>
      if is_space c
      then (if in_run then 0 else 1) + ws_runs true s'
      else ws_runs false s'
  end%N.

(** [s.split(/\s+/).length]: one piece more than there are separators. *)
Definition split_ws_length (s : jsstring) : N := N.succ (ws_runs false s).

(** JavaScript numbers are IEEE 754 doubles: binary64, rounded to nearest
    with ties to even.  The arithmetic is that of the reference model of the
    Standard Library. *)
Definition double := spec_float.

Definition double_sub : double -> double -> double := SFsub 53%Z 1024%Z.
Definition double_mul : double -> double -> double := SFmul 53%Z 1024%Z.
Definition double_div : double -> double -> double := SFdiv 53%Z 1024%Z.

(** A length as a double.  Lengths of strings are below 2^53, so they are
    doubles as they are: mantissa [n], exponent 0 (the operations below
    normalize what they return). *)
Definition double_of_length (n : N) : double :=
  match n with
  | N0 => S754_zero false
  | Npos p => S754_finite false p 0%Z
  end.

(** The literals [1] and [100]. *)
Definition double_1 : double := binary_normalize 53 1024 1 0 false.
Definition double_100 : double := binary_normalize 53 1024 100 0 false.

(** [(1 - summaryLength / originalLength) * 100] *)
Definition reduction_value (summaryLength originalLength : N) : double :=
  double_mul
    (double_sub double_1
       (double_div (double_of_length summaryLength) (double_of_length originalLength)))
    double_100.

(** What [toFixed(1)] reads off a number: that it is not finite, or its sign
    and the integer [tenths] for which [tenths / 10] is nearest to its
    distance from zero, the larger one of two that are equally near. *)
Inductive Number :=
| NaN
| NegInfinity
| PosInfinity
| Finite (negative : bool) (tenths : N).

(** The nearest number of tenths to [m * 2^e]. *)
Definition nearest_tenths (m : positive) (e : Z) : N :=
  match e with
  | Zneg k => ((20 * Npos m + 2 ^ Npos k) / (2 * 2 ^ Npos k))%N
  | Z0 => (10 * Npos m)%N
  | Zpos k => (10 * Npos m * 2 ^ Npos k)%N
  end.

Definition to_tenths (x : double) : Number :=
  match x with
  | S754_nan => NaN
  | S754_infinity true => NegInfinity
  | S754_infinity false => PosInfinity
  | S754_zero _ => Finite false 0
  | S754_finite negative m e => Finite negative (nearest_tenths m e)
  end.

Definition reduction (summaryLength originalLength : N) : Number :=
  to_tenths (reduction_value summaryLength originalLength).

Definition toFixed1 (x : Number) : jsstring :=
  match x with
  | NaN => lit "NaN"
  | NegInfinity => lit "-Infinity"
  | PosInfinity => lit "Infinity"
  | Finite negative tenths =>
      (if negative then lit "-" else []) ++
      of_N (tenths / 10) ++ lit "." ++ of_N (tenths mod 10)
  end.

(** ** The program *)

Definition NL : char16 := 10%N.

(** ['='.repeat(60)] *)
Definition rule : jsstring := repeat 61%N 60.

Fixpoint jseqb (a b : jsstring) : bool :=
  match a, b with
  | [], [] => true
  | x :: a', y :: b' => (x =? y)%N && jseqb a' b'
  | _, _ => false
  end.

(** [error.code !== 'ERR_USE_AFTER_CLOSE'] *)
Definition not_use_after_close (error : Error) : bool :=
  match code error with
  | Some c => negb (jseqb c (lit "ERR_USE_AFTER_CLOSE"))
  | None => true
  end.

Definition notice : jsstring := NL :: lit "No text provided. Exiting...".

(** The interactive branch of [main]: the prompt, the lines of standard input
    each followed by a newline, and the final [trim]. *)
Definition read_interactive (env : Env) : M jsstring :=
  console_log rule ;;
  console_log (lit "AI TEXT SUMMARIZER (local fallback if no OPENAI_API_KEY)") ;;
  console_log rule ;;
  console_log (NL :: lit "Enter or paste your text below:") ;;
  console_log (lit "(Press Ctrl+c when done)" ++ [NL]) ;;
  let userText :=
    fold_left (fun acc line => acc ++ line ++ [NL]) (stdin_lines env) [] in
  match stdin_error env with
  | None => ret tt
  | Some error =>
      try_catch (throw error)
                (fun error => if not_use_after_close error then throw error else ret tt)
  end ;;
  ret (trim userText).

(** The file branch of [main]: the contents as they are. *)
Definition read_file (env : Env) (path : jsstring) : M jsstring :=
  match readFileSync env path with
  | inr contents => ret contents
  | inl err =>
      console_error (lit "Unable to read file: " ++ path ++ lit " " ++ message err) ;;
      process_exit 1
  end.

(** Lines 86-88 of [main]. *)
Definition announce : M unit :=
  console_log (NL :: rule) ;;
  console_log (lit "PROCESSING...") ;;
  console_log rule.

(** Lines 92-119 of [main]: the statistics of the text and of its summary. *)
Definition report (userText : jsstring) (r : SummaryResult) : M unit :=
  let originalLength := len userText in
  let summaryLength := len (summary r) in
  console_log (NL :: rule) ;;
  console_log (lit "ORIGINAL TEXT LENGTH") ;;
  console_log rule ;;
  console_log (lit "Characters: " ++ of_N originalLength) ;;
  console_log (lit "Words: " ++ of_N (split_ws_length userText)) ;;
  console_log (NL :: rule) ;;
  console_log (lit "SUMMARY") ;;
  console_log rule ;;
  console_log (summary r) ;;
  console_log (NL :: rule) ;;
  console_log (lit "SUMMARY LENGTH") ;;
  console_log rule ;;
  console_log (lit "Characters: " ++ of_N summaryLength) ;;
  console_log (lit "Words: " ++ of_N (split_ws_length (summary r))) ;;
  console_log (lit "Reduction: " ++ toFixed1 (reduction summaryLength originalLength)
               ++ lit "%") ;;
  console_log (NL :: rule) ;;
  console_log (lit "TOKEN USAGE (approx)") ;;
  console_log rule ;;
  console_log (lit "Prompt tokens: " ++ of_N (prompt_tokens (usage r))) ;;
  console_log (lit "Completion tokens: " ++ of_N (completion_tokens (usage r))) ;;
  console_log (lit "Total tokens: " ++ of_N (total_tokens (usage r))) ;;
  console_log rule.

Definition main (env : Env) : M unit :=
  let argv := skipn 2 (argv env) in
  userText <- match argv with
              | path :: _ => if truthy path then read_file env path
                             else read_interactive env
              | [] => read_interactive env
              end ;;
  if negb (truthy userText) then
    console_log notice ;;
    process_exit 0
  else
    announce ;;
    r <- summarizeText env userText ;;
    report userText r.

(** [main().catch(err => { console.error(err); process.exit(1); })] *)
Definition program (env : Env) : M unit :=
  try_catch (main env)
            (fun err => console_error_inspect err ;; process_exit 1).

(** ** The output of the report, and sample environments *)

(** What [report] prints, as a list. *)
Definition report_lines (userText : jsstring) (r : SummaryResult) : list Output :=
  [ Stdout (NL :: rule);
    Stdout (lit "ORIGINAL TEXT LENGTH");
    Stdout rule;
    Stdout (lit "Characters: " ++ of_N (len userText));
    Stdout (lit "Words: " ++ of_N (split_ws_length userText));
    Stdout (NL :: rule);
    Stdout (lit "SUMMARY");
    Stdout rule;
    Stdout (summary r);
    Stdout (NL :: rule);
    Stdout (lit "SUMMARY LENGTH");
    Stdout rule;
    Stdout (lit "Characters: " ++ of_N (len (summary r)));
    Stdout (lit "Words: " ++ of_N (split_ws_length (summary r)));
    Stdout (lit "Reduction: " ++ toFixed1 (reduction (len (summary r)) (len userText))
            ++ lit "%");
    Stdout (NL :: rule);
    Stdout (lit "TOKEN USAGE (approx)");
    Stdout rule;
    Stdout (lit "Prompt tokens: " ++ of_N (prompt_tokens (usage r)));
    Stdout (lit "Completion tokens: " ++ of_N (completion_tokens (usage r)));
    Stdout (lit "Total tokens: " ++ of_N (total_tokens (usage r)));
    Stdout rule ].

Definition announce_lines : list Output :=
  [ Stdout (NL :: rule); Stdout (lit "PROCESSING..."); Stdout rule ].

Definition printed (w : World) (out : list Output) : World :=
  mkWorld (console w ++ out) (network w).

(** Environments used as concrete instances: a file named on the command
    line, no credential, and an endpoint that is out of order. *)
Definition unavailable : Error := mkError (Some (lit "ECONNREFUSED")) (lit "connect failed").

Definition file_env (key : option jsstring) (contents : jsstring) : Env :=
  mkEnv key (fun _ _ => inl unavailable)
        [lit "node"; lit "text-summarizer.js"; lit "input.txt"]
        (fun _ => inr contents) [] None.

Definition fresh : World := mkWorld [] [].

Definition scenario1 : jsstring :=
  lit "Hello world. This is a test. Another sentence. And one more.".

Definition visible (c : char16) : bool := negb (is_space c).

(** ** Shapes of text and of runs, for the properties below *)

(** A text that begins like a sentence: with a unit that is neither a
    terminator nor white space. *)
Definition starts_sentence (s : jsstring) : bool :=
  match s with
  | c :: _ => Regex.non_term c && negb (is_space c)
  | [] => false
  end.

(** A text that is one sentence: it begins like one, has a terminator, and
    the pattern matches all of it in one go. *)
Definition is_sentence (f : jsstring) : bool :=
  starts_sentence f && existsb Regex.is_term f &&
  match Regex.sentence f with
  | Some [] => true
  | _ => false
  end.

(** The last unit of a text is a terminator; the first one is. *)
Definition ends_with_term (f : jsstring) : bool :=
  match rev f with
  | t :: _ => Regex.is_term t
  | [] => false
  end.

Definition starts_with_term (s : jsstring) : bool :=
  match s with
  | c :: _ => Regex.is_term c
  | [] => false
  end.

(** No file is named on the command line: [argv[0]] is missing or empty. *)
Definition interactive (env : Env) : bool :=
  match skipn 2 (argv env) with
  | path :: _ => negb (truthy path)
  | [] => true
  end.

(** The stream of lines ends without an error, or with the error that the
    loop of [main] swallows. *)
Definition closes_quietly (env : Env) : bool :=
  match stdin_error env with
  | None => true
  | Some error => negb (not_use_after_close error)
  end.

(** What the loop of [main] has gathered when the stream ends. *)
Definition typed_text (env : Env) : jsstring :=
  fold_left (fun acc line => acc ++ line ++ [NL]) (stdin_lines env) [].

(** What the interactive branch prints before it reads. *)
Definition prompt_lines : list Output :=
  [ Stdout rule;
    Stdout (lit "AI TEXT SUMMARIZER (local fallback if no OPENAI_API_KEY)");
    Stdout rule;
    Stdout (NL :: lit "Enter or paste your text below:");
    Stdout (lit "(Press Ctrl+c when done)" ++ [NL]) ].

(** An environment whose endpoint answers every request with [answer]. *)
Definition answering_env (answer : Completion) (contents : jsstring) : Env :=
  mkEnv (Some (lit "sk-test")) (fun _ _ => inr answer)
        [lit "node"; lit "text-summarizer.js"; lit "input.txt"]
        (fun _ => inr contents) [] None.

(** An environment without a file argument: the text is typed in. *)
Definition typing_env (key : option jsstring) (lines : list jsstring)
    (failure : option Error) : Env :=
  mkEnv key (fun _ _ => inl unavailable)
        [lit "node"; lit "text-summarizer.js"]
        (fun _ => inl unavailable) lines failure.

(** The first half of [main]: where the text comes from. *)
Definition read_input (env : Env) : M jsstring :=
  match skipn 2 (argv env) with
  | path :: _ => if truthy path then read_file env path
                 else read_interactive env
  | [] => read_interactive env
  end.

(** The second half of [main]: what happens to the text. *)
Definition proceed (env : Env) (userText : jsstring) : M unit :=
  if negb (truthy userText) then
    console_log notice ;;
    process_exit 0
  else
    announce ;;
    r <- summarizeText env userText ;;
    report userText r.

(** ** Facts about strings and the pattern *)

Section StringFacts.

Import Regex.

Lemma space_non_term c : is_space c = true -> non_term c = true.
Proof.
  unfold non_term, is_term. intros H.
  destruct (N.eqb_spec c 46) as [->|]; [discriminate H|].
  destruct (N.eqb_spec c 33) as [->|]; [discriminate H|].
  destruct (N.eqb_spec c 63) as [->|]; [discriminate H|].
  reflexivity.
Qed.

Lemma term_not_space c : is_term c = true -> is_space c = false.
Proof.
  intros H. destruct (is_space c) eqn:E; [|reflexivity].
  apply space_non_term in E. unfold non_term in E. rewrite H in E. discriminate.
Qed.

Lemma dropWhile_all p s : forallb p s = true -> dropWhile p s = [].
Proof.
  induction s as [|c s IH]; simpl; [reflexivity|].
  destruct (p c); simpl; [exact IH | discriminate].
Qed.

Lemma dropWhile_app_all p s t :
  forallb p s = true -> dropWhile p (s ++ t) = dropWhile p t.
Proof.
  induction s as [|c s IH]; simpl; [reflexivity|].
  destruct (p c); simpl; [exact IH | discriminate].
Qed.

Lemma dropWhile_stop p s :
  match s with c :: _ => p c = false | [] => True end -> dropWhile p s = s.
Proof. destruct s as [|c s]; simpl; [reflexivity|]. intros ->. reflexivity. Qed.

Lemma forallb_weaken (p q : char16 -> bool) s :
  (forall c, p c = true -> q c = true) -> forallb p s = true -> forallb q s = true.
Proof.
  intros Hpq. induction s as [|c s IH]; simpl; [reflexivity|].
  intros H. apply andb_prop in H as [Hc Hs]. rewrite (Hpq _ Hc), (IH Hs). reflexivity.
Qed.

Lemma trim_all_space s : forallb is_space s = true -> trim s = [].
Proof.
  intros H. unfold trim, trimStart. rewrite (dropWhile_all _ _ H). reflexivity.
Qed.

Lemma trimStart_some s :
  existsb (fun c => negb (is_space c)) s = true -> trimStart s <> [].
Proof.
  unfold trimStart. induction s as [|c s IH]; simpl; [discriminate|].
  destruct (is_space c); simpl; [exact IH | discriminate].
Qed.

Lemma dropWhile_last p s c : p c = false -> dropWhile p (s ++ [c]) <> [].
Proof.
  intros Hc. induction s as [|d s IH]; simpl.
  - rewrite Hc. discriminate.
  - destruct (p d); [exact IH | discriminate].
Qed.

Lemma dropWhile_false_head p s :
  match dropWhile p s with c :: _ => p c = false | [] => True end.
Proof.
  induction s as [|c s IH]; simpl; [exact I|].
  destruct (p c) eqn:E; [exact IH | exact E].
Qed.

(** A text with a code unit that is not white space does not trim to the
    empty string. *)
Lemma trim_some s :
  existsb (fun c => negb (is_space c)) s = true -> trim s <> [].
Proof.
  intros H. apply trimStart_some in H. unfold trim, trimEnd.
  pose proof (dropWhile_false_head is_space s) as Hh. fold (trimStart s) in Hh.
  destruct (trimStart s) as [|c t]; [contradiction|]. clear H.
  simpl rev. intros E.
  assert (R : dropWhile is_space (rev t ++ [c]) = []).
  { rewrite <- (rev_involutive (dropWhile _ _)), E. reflexivity. }
  exact (dropWhile_last _ _ _ Hh R).
Qed.

Lemma trim_nonempty_some s :
  trim s <> [] -> existsb (fun c => negb (is_space c)) s = true.
Proof.
  intros H. destruct (existsb _ s) eqn:E; [reflexivity|]. exfalso. apply H.
  apply trim_all_space. clear H. induction s as [|c s IH]; simpl in *; [reflexivity|].
  apply orb_false_elim in E as [Ec Es]. apply negb_false_iff in Ec.
  rewrite Ec, (IH Es). reflexivity.
Qed.

Lemma consumed_all (s : jsstring) : consumed s [] = s.
Proof. unfold consumed. simpl. rewrite Nat.sub_0_r. apply firstn_all. Qed.

(** One step of the loop, with the pattern read greedily. *)
Lemma matches_cons c s :
  matches (c :: s) =
  if non_term c
  then consumed (c :: s) (after_fragment (c :: s)) :: matches (after_fragment (c :: s))
  else matches s.
Proof.
  simp matches.
  pose proof (sentence_greedy (c :: s)) as G. cbv beta iota in G.
  destruct (inspect (sentence (c :: s))) as [[rest|] e]; simpl;
    rewrite e in G; destruct (non_term c); congruence.
Qed.

Lemma matches_nil : matches [] = [].
Proof. simp matches. reflexivity. Qed.

(** Terminators at [lastIndex] are stepped over: no match starts there. *)
Lemma matches_skip t s : forallb is_term t = true -> matches (t ++ s) = matches s.
Proof.
  induction t as [|c t IH]; simpl; [reflexivity|].
  intros H. apply andb_prop in H as [Hc Ht].
  rewrite matches_cons. unfold non_term. rewrite Hc. simpl. exact (IH Ht).
Qed.

(** A non-empty text without terminators is one fragment. *)
Lemma matches_no_term s :
  s <> [] -> forallb non_term s = true -> matches s = [s].
Proof.
  intros Hne H. destruct s as [|c s]; [contradiction|].
  rewrite matches_cons. pose proof H as H'. simpl in H'.
  apply andb_prop in H' as [Hc _]. rewrite Hc.
  unfold after_fragment. rewrite (dropWhile_all _ _ H). simpl.
  rewrite matches_nil, consumed_all. reflexivity.
Qed.

Lemma count_term_dropWhile p s : count_term (dropWhile p s) <= count_term s.
Proof.
  unfold count_term. induction s as [|c s IH]; simpl; [lia|].
  destruct (p c); [|simpl; lia]. destruct (is_term c); simpl; lia.
Qed.

(** Past the first fragment there is one terminator less, unless nothing is
    left at all. *)
Lemma after_fragment_count s :
  after_fragment s = [] \/ S (count_term (after_fragment s)) <= count_term s.
Proof.
  unfold after_fragment.
  pose proof (dropWhile_false_head non_term s) as Hh.
  pose proof (count_term_dropWhile non_term s) as Hc.
  destruct (dropWhile non_term s) as [|t s1]; [left; reflexivity|]. right.
  apply negb_false_iff in Hh. simpl dropWhile at 2. rewrite Hh.
  pose proof (count_term_dropWhile is_space (dropWhile is_term s1)).
  pose proof (count_term_dropWhile is_term s1).
  unfold count_term in *. simpl in Hc. rewrite Hh in Hc. simpl in Hc. lia.
Qed.

(** Every fragment but the last one ends a run of terminators, so there is at
    most one fragment more than there are terminators. *)
Lemma matches_count s : length (matches s) <= S (count_term s).
Proof.
  remember (length s) as n eqn:Hn. revert s Hn.
  induction n as [n IH] using lt_wf_ind. intros s Hn.
  destruct s as [|c s]; [rewrite matches_nil; simpl; lia|].
  rewrite matches_cons. destruct (non_term c) eqn:Ec.
  - simpl length.
    destruct (after_fragment_count (c :: s)) as [E|Hle].
    + rewrite E, matches_nil. simpl. lia.
    + assert (Hs : length (after_fragment (c :: s)) < n).
      { subst n. apply sentence_shorter. rewrite sentence_greedy, Ec. reflexivity. }
      pose proof (IH _ Hs _ eq_refl). lia.
  - assert (Hs : length s < n) by (subst n; simpl; lia).
    pose proof (IH _ Hs _ eq_refl) as H.
    unfold count_term in *. simpl. destruct (is_term c); simpl; lia.
Qed.

Lemma dropWhile_suffix p s : exists pre, s = pre ++ dropWhile p s.
Proof.
  induction s as [|c s [pre IH]]; simpl.
  - exists []. reflexivity.
  - destruct (p c).
    + exists (c :: pre). simpl. rewrite <- IH. reflexivity.
    + exists []. reflexivity.
Qed.

Lemma after_fragment_suffix s : exists pre, s = pre ++ after_fragment s.
Proof.
  unfold after_fragment.
  destruct (dropWhile_suffix non_term s) as [p1 E1].
  destruct (dropWhile_suffix is_term (dropWhile non_term s)) as [p2 E2].
  destruct (dropWhile_suffix is_space (dropWhile is_term (dropWhile non_term s)))
    as [p3 E3].
  exists (p1 ++ p2 ++ p3). rewrite <- !app_assoc, <- E3, <- E2, <- E1. reflexivity.
Qed.

End StringFacts.

(** ** Facts about the Local strategy *)

Section LocalFacts.

Import Regex.

Lemma sentences_no_term text :
  forallb non_term text = true -> sentences_of text = [text].
Proof.
  intros H. unfold sentences_of, match_g. destruct text as [|c s].
  - rewrite matches_nil. reflexivity.
  - rewrite (matches_no_term (c :: s)); [reflexivity | discriminate | exact H].
Qed.

Lemma either_way (s : jsstring) : (if truthy s then s else s) = s.
Proof. destruct (truthy s); reflexivity. Qed.

Lemma summary_single text :
  sentences_of text = [text] -> summary (localSummarize text) = trim text.
Proof.
  intros H. unfold localSummarize, selection_of. rewrite H. simpl. apply either_way.
Qed.

Lemma summary_no_term text :
  forallb non_term text = true -> summary (localSummarize text) = trim text.
Proof. intros H. apply summary_single, sentences_no_term, H. Qed.

Lemma summary_all_space text :
  forallb is_space text = true -> summary (localSummarize text) = [].
Proof.
  intros H. rewrite summary_no_term.
  - apply trim_all_space, H.
  - exact (forallb_weaken _ _ _ space_non_term H).
Qed.

Lemma summary_nonempty text :
  trim text <> [] -> summary (localSummarize text) <> [].
Proof.
  intros H. unfold localSummarize. simpl.
  destruct (selection_of text) as [|c s] eqn:E; simpl; [exact H | discriminate].
Qed.

Lemma after_spaces ws :
  forallb is_space ws = true -> dropWhile is_space (dropWhile is_term ws) = [].
Proof.
  intros H. rewrite (dropWhile_stop is_term ws).
  - apply dropWhile_all, H.
  - destruct ws as [|c ws]; [exact I|]. simpl in H. apply andb_prop in H as [Hc _].
    destruct (is_term c) eqn:E; [|reflexivity].
    apply term_not_space in E. congruence.
Qed.

(** A run of non-terminators, then terminators, then white space is matched
    whole by the pattern. *)
Lemma after_fragment_sentence body terms ws :
  forallb non_term body = true -> forallb is_term terms = true ->
  forallb is_space ws = true ->
  after_fragment (body ++ terms ++ ws) = [].
Proof.
  intros Hb Ht Hw. unfold after_fragment. rewrite (dropWhile_app_all _ _ _ Hb).
  destruct terms as [|t terms].
  - simpl. rewrite (dropWhile_all _ _ (forallb_weaken _ _ _ space_non_term Hw)).
    reflexivity.
  - pose proof Ht as Ht'. simpl in Ht'. apply andb_prop in Ht' as [Hc _].
    rewrite (dropWhile_stop non_term ((t :: terms) ++ ws)).
    + rewrite (dropWhile_app_all _ _ _ Ht). apply after_spaces, Hw.
    + simpl. unfold non_term. rewrite Hc. reflexivity.
Qed.

Lemma summary_one_sentence body terms ws :
  forallb non_term body = true -> forallb is_term terms = true ->
  forallb is_space ws = true ->
  summary (localSummarize (body ++ terms ++ ws)) = trim (body ++ terms ++ ws).
Proof.
  intros Hb Ht Hw. destruct body as [|c body].
  - (* the text starts with its terminators: they are stepped over *)
    simpl app. destruct ws as [|d ws].
    + apply summary_single. unfold sentences_of, match_g.
      rewrite matches_skip, matches_nil by exact Ht. reflexivity.
    + assert (E : sentences_of (terms ++ d :: ws) = [d :: ws]).
      { unfold sentences_of, match_g. rewrite matches_skip by exact Ht.
        rewrite matches_no_term; [reflexivity | discriminate |].
        exact (forallb_weaken _ _ _ space_non_term Hw). }
      unfold localSummarize, selection_of. rewrite E. simpl join.
      rewrite (trim_all_space _ Hw). reflexivity.
  - apply summary_single. unfold sentences_of, match_g.
    change ((c :: body) ++ terms ++ ws) with (c :: (body ++ terms ++ ws)).
    rewrite matches_cons. pose proof Hb as Hb'. simpl in Hb'.
    apply andb_prop in Hb' as [Hc _]. rewrite Hc.
    change (c :: (body ++ terms ++ ws)) with ((c :: body) ++ terms ++ ws).
    rewrite (after_fragment_sentence _ _ _ Hb Ht Hw), matches_nil, consumed_all.
    reflexivity.
Qed.

(** With fewer than three terminators there are at most three fragments. *)
Lemma sentences_few text :
  count_term text < 3 -> length (sentences_of text) <= 3.
Proof.
  intros H. unfold sentences_of, match_g.
  pose proof (matches_count text) as Hc.
  destruct (matches text); simpl in *; lia.
Qed.

End LocalFacts.

(** ** Facts about the orchestration *)

Section OrchestrationFacts.

Variable env : Env.

Lemma summarizeText_local text w :
  openai env = None -> summarizeText env text w = (Ok (localSummarize text), w).
Proof. intros H. unfold summarizeText. rewrite H. reflexivity. Qed.

(** A call of the Remote strategy sends exactly one request and prints
    nothing, however it ends. *)
Lemma summarizeWithOpenAI_once client text w :
  openai env = Some client ->
  network (snd (summarizeWithOpenAI env text w)) = network w ++ [request_for text] /\
  console (snd (summarizeWithOpenAI env text w)) = console w.
Proof.
  intros H. unfold summarizeWithOpenAI, bind, chat_completions_create. rewrite H.
  destruct (endpoint env (network w) (request_for text)) as [e|ans]; simpl.
  - split; reflexivity.
  - destruct (choices ans); simpl; split; reflexivity.
Qed.

(** The Remote strategy never ends the process. *)
Lemma summarizeWithOpenAI_no_exit text w n w' :
  summarizeWithOpenAI env text w <> (Exit n, w').
Proof.
  unfold summarizeWithOpenAI, bind, chat_completions_create.
  destruct (openai env); [|discriminate].
  destruct (endpoint env (network w) (request_for text)) as [e|ans]; [discriminate|].
  destruct (choices ans); discriminate.
Qed.

(** [summarizeText] always returns a result. *)
Lemma summarizeText_returns text w :
  exists r w', summarizeText env text w = (Ok r, w').
Proof.
  unfold summarizeText. destruct (openai env) as [client|].
  - unfold try_catch.
    destruct (summarizeWithOpenAI env text w) as [[r|e|n] w'] eqn:E.
    + exists r, w'. reflexivity.
    + exists (localSummarize text), w'. reflexivity.
    + exfalso. exact (summarizeWithOpenAI_no_exit _ _ _ _ E).
  - exists (localSummarize text), w. reflexivity.
Qed.

End OrchestrationFacts.

(** ** Facts about the program *)

Section ProgramFacts.

Lemma console_log_run line w : console_log line w = (Ok tt, printed w [Stdout line]).
Proof. reflexivity. Qed.

Lemma printed_printed w a b : printed (printed w a) b = printed w (a ++ b).
Proof. unfold printed. simpl. rewrite app_assoc. reflexivity. Qed.

Lemma bind_log {A} line (k : M A) w :
  (console_log line ;; k) w = k (printed w [Stdout line]).
Proof. reflexivity. Qed.

Lemma announce_run w : announce w = (Ok tt, printed w announce_lines).
Proof.
  unfold announce. rewrite !bind_log, console_log_run, !printed_printed. reflexivity.
Qed.

Lemma report_run userText r w :
  report userText r w = (Ok tt, printed w (report_lines userText r)).
Proof.
  unfold report. cbv zeta.
  rewrite !bind_log, console_log_run, !printed_printed. reflexivity.
Qed.

Variable env : Env.

(** With a readable, non-empty file named on the command line, [main] goes
    on to summarize the contents as they were read. *)
Lemma main_file path rest contents w :
  skipn 2 (argv env) = path :: rest -> truthy path = true ->
  readFileSync env path = inr contents -> truthy contents = true ->
  main env w = (announce ;; r <- summarizeText env contents ;; report contents r) w.
Proof.
  intros Ha Hp Hf Hc. unfold main. cbv zeta. rewrite Ha, Hp.
  unfold read_file. rewrite Hf.
  unfold bind at 1. unfold ret at 1. rewrite Hc. reflexivity.
Qed.

Lemma main_file_local path rest contents w :
  skipn 2 (argv env) = path :: rest -> truthy path = true ->
  readFileSync env path = inr contents -> truthy contents = true ->
  openai env = None ->
  main env w =
  (Ok tt, printed w (announce_lines ++ report_lines contents (localSummarize contents))).
Proof.
  intros Ha Hp Hf Hc Ho. rewrite (main_file _ _ _ w Ha Hp Hf Hc).
  unfold bind. rewrite announce_run, (summarizeText_local _ _ _ Ho), report_run.
  rewrite printed_printed. reflexivity.
Qed.

Lemma main_file_completes path rest contents w :
  skipn 2 (argv env) = path :: rest -> truthy path = true ->
  readFileSync env path = inr contents -> truthy contents = true ->
  fst (main env w) = Ok tt.
Proof.
  intros Ha Hp Hf Hc. rewrite (main_file _ _ _ w Ha Hp Hf Hc).
  unfold bind. rewrite announce_run.
  destruct (summarizeText_returns env contents (printed w announce_lines))
    as (r & w' & E).
  rewrite E, report_run. reflexivity.
Qed.

End ProgramFacts.

(** ** Facts about the pattern object *)

Section PatternObjectFacts.

Import Regex.

Lemma heap_get_lt h a rx : heap_get h a = Some rx -> a < length h.
Proof.
  unfold heap_get. intros H. apply nth_error_Some. rewrite H. discriminate.
Qed.

Lemma heap_get_set h a rx : a < length h -> heap_get (heap_set h a rx) a = Some rx.
Proof.
  revert a. induction h as [|x h IH]; intros a Ha; simpl in *; [lia|].
  destruct a as [|a]; [reflexivity|]. simpl. apply IH. lia.
Qed.

Lemma heap_set_set h a x y : heap_set (heap_set h a x) a y = heap_set h a y.
Proof.
  revert a. induction h as [|z h IH]; intros a; simpl; [reflexivity|].
  destruct a as [|a]; simpl; [reflexivity|]. rewrite IH. reflexivity.
Qed.

Lemma heap_set_length h a x : length (heap_set h a x) = length h.
Proof.
  revert a. induction h as [|z h IH]; intros a; simpl; [reflexivity|].
  destruct a as [|a]; simpl; [reflexivity|]. rewrite IH. reflexivity.
Qed.

Lemma heap_get_new h rx : heap_get (h ++ [rx]) (length h) = Some rx.
Proof.
  unfold heap_get. rewrite nth_error_app2 by lia. rewrite Nat.sub_diag. reflexivity.
Qed.

Lemma heap_set_new h x y : heap_set (h ++ [x]) (length h) y = h ++ [y].
Proof. induction h as [|z h IH]; simpl; [reflexivity|]. rewrite IH. reflexivity. Qed.

Lemma consumed_nonempty c s rest :
  length rest < length (c :: s) -> consumed (c :: s) rest <> [].
Proof.
  unfold consumed. intros H.
  destruct (length (c :: s) - length rest) as [|n] eqn:E; [lia|]. discriminate.
Qed.

Lemma search_cons c s :
  search (c :: s) =
  match sentence (c :: s) with
  | Some rest => Some (consumed (c :: s) rest, rest)
  | None => search s
  end.
Proof. reflexivity. Qed.

(** The search finds the first fragment of the loop of [matches], and
    nothing when there is no fragment. *)
Lemma search_matches s :
  match search s with
  | None => matches s = []
  | Some (m, rest) =>
      matches s = m :: matches rest /\ m <> [] /\
      length rest < length s /\ exists pre, s = pre ++ rest
  end.
Proof.
  induction s as [|c s IH].
  - rewrite matches_nil. reflexivity.
  - rewrite search_cons, matches_cons.
    pose proof (sentence_greedy (c :: s)) as G. cbv beta iota in G.
    destruct (sentence (c :: s)) as [rest|] eqn:E.
    + destruct (non_term c); [|discriminate]. injection G as ->.
      pose proof (sentence_shorter _ _ E) as L.
      split; [reflexivity|]. split; [exact (consumed_nonempty c s _ L)|].
      split; [exact L|].
      destruct (after_fragment_suffix (c :: s)) as [pre Ep]. exists pre. exact Ep.
    + destruct (non_term c); [discriminate|].
      destruct (search s) as [[m rest]|]; [|exact IH].
      destruct IH as (E1 & E2 & E3 & pre & E4).
      split; [exact E1|]. split; [exact E2|]. split; [simpl; lia|].
      exists (c :: pre). simpl. rewrite <- E4. reflexivity.
Qed.

Lemma skipn_suffix (text x rest : jsstring) :
  text = x ++ rest -> skipn (length text - length rest) text = rest.
Proof.
  intros ->. rewrite length_app, Nat.add_sub.
  induction x as [|c x IH]; simpl; [reflexivity | exact IH].
Qed.

Definition found_or_null (l : list jsstring) : option (list jsstring) :=
  match l with
  | [] => None
  | _ :: _ => Some l
  end.

(** The loop, entered with [lastIndex] at [i], collects the fragments of the
    text from [i] on and leaves [lastIndex] at 0; the fuel is enough. *)
Lemma match_loop_from fuel a text A h i :
  heap_get h a = Some (mkRegExp i) -> i <= length text ->
  length text - i < fuel ->
  match_loop fuel a text A h
  = Some (found_or_null (A ++ matches (skipn i text)), heap_set h a (mkRegExp 0)).
Proof.
  revert A h i. induction fuel as [|fuel IH]; intros A h i Hg Hi Hf; [lia|].
  pose proof (heap_get_lt _ _ _ Hg) as Ha.
  simpl match_loop. unfold regexp_exec. rewrite Hg. simpl lastIndex.
  assert (Hlt : (length text <? i) = false) by (apply Nat.ltb_ge; exact Hi).
  rewrite Hlt.
  pose proof (search_matches (skipn i text)) as Hs.
  destruct (search (skipn i text)) as [[m rest]|].
  - destruct Hs as (E1 & E2 & E3 & pre & E4).
    unfold advance_if_empty.
    destruct m as [|c m]; [contradiction|]. simpl truthy. cbv iota.
    assert (Hrest : skipn (length text - length rest) text = rest).
    { apply (skipn_suffix text (firstn i text ++ pre) rest).
      rewrite <- app_assoc, <- E4. symmetry. apply firstn_skipn. }
    rewrite length_skipn in E3.
    rewrite (IH (A ++ [c :: m]) _ (length text - length rest)).
    + rewrite heap_set_set, Hrest, E1, <- app_assoc. reflexivity.
    + apply heap_get_set. exact Ha.
    + lia.
    + lia.
  - rewrite Hs, app_nil_r. destruct A; reflexivity.
Qed.

(** [text.match(rx)] gives what [match_g] gives, whatever [lastIndex] the
    object had before, and leaves it at 0. *)
Lemma symbol_match_spec a text h rx :
  heap_get h a = Some rx ->
  symbol_match a text h = Some (match_g text, heap_set h a (mkRegExp 0)).
Proof.
  intros Hg. unfold symbol_match. rewrite Hg.
  pose proof (heap_get_lt _ _ _ Hg) as Ha.
  rewrite (match_loop_from _ a text [] _ 0);
    [| apply heap_get_set; exact Ha | lia | lia].
  rewrite heap_set_set. simpl. unfold match_g, found_or_null.
  destruct (matches text); reflexivity.
Qed.

(** A run of [localSummarize] on any heap returns what the function of the
    text returns, and adds one object, at rest, to the heap. *)
Lemma localSummarize_run_spec text h :
  localSummarize_run text h = Some (localSummarize text, h ++ [mkRegExp 0]).
Proof.
  unfold localSummarize_run, heap_alloc.
  rewrite (symbol_match_spec (length h) text (h ++ [mkRegExp 0]) (mkRegExp 0)
             (heap_get_new h (mkRegExp 0))).
  rewrite heap_set_new. reflexivity.
Qed.

End PatternObjectFacts.

(** * The properties of the specification *)

Section Claims.

Import Regex.

(** C1, as stated, fails: the text made of one space is not empty, and its
    Local summary is. *)
Lemma blank_text_empty_summary :
  ~ (forall text, text <> [] -> summary (localSummarize text) <> []).
Proof.
  intros H. apply (H [32%N]); [discriminate | reflexivity].
Qed.

(** C1 (amended): for every input text with at least one code unit that is not
    white space, [localSummarize] returns a non-empty summary, and so does
    [summarizeText] whenever the Local strategy answers: when Remote is not
    configured, and when the Remote call throws. *)
Theorem visible_text_nonempty_summary text :
  existsb visible text = true ->
  summary (localSummarize text) <> [] /\
  (forall env w, openai env = None ->
     exists r, summarizeText env text w = (Ok r, w) /\ summary r <> []) /\
  (forall env client w e w', openai env = Some client ->
     summarizeWithOpenAI env text w = (Throw e, w') ->
     exists r, summarizeText env text w = (Ok r, w') /\ summary r <> []).
Proof.
  intros H. assert (L : summary (localSummarize text) <> []).
  { apply summary_nonempty, trim_some, H. }
  split; [exact L | split].
  - intros env w Ho. exists (localSummarize text).
    rewrite (summarizeText_local _ _ _ Ho). split; [reflexivity | exact L].
  - intros env client w e w' Ho E. exists (localSummarize text). split; [|exact L].
    unfold summarizeText, try_catch. rewrite Ho, E. reflexivity.
Qed.

Lemma visible_text_nonempty_summary_witness :
  summary (localSummarize (lit "Hello world.")) <> [].
Proof.
  apply (visible_text_nonempty_summary (lit "Hello world.")). reflexivity.
Defined.

(** C2: when Remote is configured and its call throws, [summarizeText] returns
    what [localSummarize] returns for the same text; one request went out and
    no second one, and nothing of the error reaches the caller or the
    console. *)
Theorem remote_failure_falls_back env client text w e w' :
  openai env = Some client ->
  summarizeWithOpenAI env text w = (Throw e, w') ->
  summarizeText env text w = (Ok (localSummarize text), w') /\
  network w' = network w ++ [request_for text] /\
  console w' = console w.
Proof.
  intros Hc E.
  destruct (summarizeWithOpenAI_once env client text w Hc) as [Hn Hl].
  rewrite E in Hn, Hl. simpl in Hn, Hl. repeat split; try assumption.
  unfold summarizeText, try_catch. rewrite Hc, E. reflexivity.
Qed.

Lemma remote_failure_falls_back_witness :
  summarizeText (file_env (Some (lit "sk-test")) scenario1) scenario1 fresh
  = (Ok (localSummarize scenario1), mkWorld [] [request_for scenario1]).
Proof.
  apply (remote_failure_falls_back
           (file_env (Some (lit "sk-test")) scenario1) (mkClient (lit "sk-test"))
           scenario1 fresh unavailable (mkWorld [] [request_for scenario1])).
  - reflexivity.
  - reflexivity.
Defined.

(** C3, as stated, fails: a text of two sentences has two terminators, and its
    summary has one space more than the trimmed text. *)
Lemma two_sentences_not_verbatim :
  count_term (lit "Hello world. Bye.") < 3 /\
  summary (localSummarize (lit "Hello world. Bye.")) = lit "Hello world.  Bye." /\
  summary (localSummarize (lit "Hello world. Bye.")) <> trim (lit "Hello world. Bye.").
Proof.
  split; [vm_compute; lia | split]; [vm_compute; reflexivity |].
  vm_compute. discriminate.
Qed.

(** C3 (amended): for every input text with fewer than 3 terminators the limit
    of three fragments drops nothing: the summary is the trimmed join, with
    single spaces, of all the fragments of the text, or the trimmed text when
    that join trims to nothing.  It is the whole trimmed text when the text is
    one sentence: non-terminators, then terminators, then white space. *)
Theorem few_terminators_keep_all text :
  count_term text < 3 ->
  slice0 3 (sentences_of text) = sentences_of text /\
  summary (localSummarize text) =
    (let all := trim (join (lit " ") (sentences_of text)) in
     if truthy all then all else trim text) /\
  (forall body terms ws,
     text = body ++ terms ++ ws ->
     forallb non_term body = true -> forallb is_term terms = true ->
     forallb is_space ws = true ->
     summary (localSummarize text) = trim text).
Proof.
  intros H.
  assert (K : slice0 3 (sentences_of text) = sentences_of text).
  { unfold slice0. apply firstn_all2, sentences_few, H. }
  split; [exact K | split].
  - unfold localSummarize, selection_of. rewrite K. reflexivity.
  - intros body terms ws -> Hb Ht Hw. apply summary_one_sentence; assumption.
Qed.

Lemma few_terminators_keep_all_witness :
  summary (localSummarize (lit "Hello world. ")) = lit "Hello world.".
Proof.
  apply (proj2 (proj2 (few_terminators_keep_all (lit "Hello world. ")
                         ltac:(vm_compute; lia)))
           (lit "Hello world") (lit ".") (lit " "));
    reflexivity.
Defined.

(** C4, as stated, fails: the summary of the scenario is not the text with
    single spaces that the claim names. *)
Lemma scenario1_not_single_spaced :
  summary (localSummarize scenario1)
  <> lit "Hello world. This is a test. Another sentence.".
Proof. vm_compute. discriminate. Qed.

(** C4 (amended): for the input of scenario 1 with Remote unconfigured, the
    summary is the first three fragments, each with the space that followed it
    and one more space between them: two spaces after each of the first two
    sentences; the usage counters are all zero, and no request is sent. *)
Theorem scenario1_summary env w :
  openai env = None ->
  summarizeText env scenario1 w =
  (Ok (mkResult (lit "Hello world.  This is a test.  Another sentence.")
                (mkUsage 0 0 0)), w).
Proof.
  intros Ho. rewrite (summarizeText_local _ _ _ Ho).
  assert (E : localSummarize scenario1 =
              mkResult (lit "Hello world.  This is a test.  Another sentence.")
                       (mkUsage 0 0 0)) by (vm_compute; reflexivity).
  rewrite E. reflexivity.
Qed.

Lemma scenario1_summary_witness :
  summarizeText (file_env None scenario1) scenario1 fresh =
  (Ok (mkResult (lit "Hello world.  This is a test.  Another sentence.")
                (mkUsage 0 0 0)), fresh).
Proof.
  apply (scenario1_summary (file_env None scenario1) fresh). reflexivity.
Defined.

(** C5: for every input text without a terminator, [localSummarize] returns
    the trimmed text: the whole text is one fragment. *)
Theorem no_terminator_verbatim text :
  forallb non_term text = true ->
  sentences_of text = [text] /\ summary (localSummarize text) = trim text.
Proof.
  intros H. split; [apply sentences_no_term | apply summary_no_term]; exact H.
Qed.

Lemma no_terminator_verbatim_witness :
  summary (localSummarize (lit "  just some words with no punctuation "))
  = lit "just some words with no punctuation".
Proof.
  apply (proj2 (no_terminator_verbatim
                  (lit "  just some words with no punctuation ") eq_refl)).
Defined.

(** C6: when Remote is not configured, [summarizeText] returns what
    [localSummarize] returns and leaves the world as it was: no request is
    sent. *)
Theorem unconfigured_uses_local env text w :
  openai env = None ->
  summarizeText env text w = (Ok (localSummarize text), w) /\
  network (snd (summarizeText env text w)) = network w.
Proof.
  intros Ho. rewrite (summarizeText_local _ _ _ Ho). split; reflexivity.
Qed.

Lemma unconfigured_uses_local_witness :
  network (snd (summarizeText (file_env None scenario1) scenario1 fresh)) = [].
Proof.
  apply (proj2 (unconfigured_uses_local (file_env None scenario1) scenario1 fresh
                  eq_refl)).
Defined.

(** C7: the Local strategy is deterministic.  Run on any heap, that is after
    any earlier calls and whatever state they left in pattern objects,
    [localSummarize] returns one and the same result for a text; a second
    invocation, run on the heap that the first one left, returns the same
    summary and the same usage counters.  Even one pattern object used again
    would give the same fragments, since [match] sets [lastIndex] to 0
    before it searches and leaves it at 0. *)
Theorem local_deterministic text h :
  exists r h1 h2,
    localSummarize_run text h = Some (r, h1) /\
    localSummarize_run text h1 = Some (r, h2) /\
    r = localSummarize text /\
    (forall h', exists h'', localSummarize_run text h' = Some (r, h'')) /\
    (forall hs a rx, heap_get hs a = Some rx ->
       symbol_match a text hs
       = Some (match_g text, heap_set hs a (mkRegExp 0))).
Proof.
  exists (localSummarize text), (h ++ [mkRegExp 0]), ((h ++ [mkRegExp 0]) ++ [mkRegExp 0]).
  split; [apply localSummarize_run_spec|].
  split; [apply localSummarize_run_spec|].
  split; [reflexivity|]. split.
  - intros h'. exists (h' ++ [mkRegExp 0]). apply localSummarize_run_spec.
  - intros hs a rx Hg. exact (symbol_match_spec a text hs rx Hg).
Qed.

(** C8: the usage record that [localSummarize] returns has its three counters
    at zero, for every text. *)
Theorem local_usage_zero text :
  prompt_tokens (usage (localSummarize text)) = 0%N /\
  completion_tokens (usage (localSummarize text)) = 0%N /\
  total_tokens (usage (localSummarize text)) = 0%N.
Proof. repeat split. Qed.

Lemma reduction_of_empty_summary n :
  (n <> 0)%N -> reduction 0 n = Finite false 1000.
Proof.
  intros H. destruct n as [|p]; [contradiction|]. reflexivity.
Qed.

Lemma len_nonzero (s : jsstring) : truthy s = true -> len s <> 0%N.
Proof. destruct s; [discriminate|]. intros _. unfold len. simpl length. lia. Qed.

(** C9: a file named on the command line is read and used as it is.  When it
    holds white space only, and at least one unit of it, the text counts as
    present: [main] neither prints the notice nor calls [process.exit], it
    hands the untrimmed contents to [summarizeText], and [localSummarize]
    returns the empty summary for them, which the report then shows. *)
Theorem whitespace_file_is_summarized env path rest contents :
  skipn 2 (argv env) = path :: rest -> truthy path = true ->
  readFileSync env path = inr contents ->
  truthy contents = true -> forallb is_space contents = true ->
  summary (localSummarize contents) = [] /\
  (forall w, main env w =
             (announce ;; r <- summarizeText env contents ;; report contents r) w) /\
  (forall w, fst (main env w) = Ok tt) /\
  (openai env = None ->
   let out := announce_lines ++ report_lines contents (mkResult [] zero_usage) in
   (forall w, main env w = (Ok tt, printed w out)) /\
   ~ In (Stdout notice) out /\
   In (Stdout (lit "Characters: " ++ of_N (len contents))) out /\
   In (Stdout (lit "Characters: 0")) out /\
   In (Stdout (lit "Reduction: 100.0%")) out).
Proof.
  intros Ha Hp Hf Hc Hs.
  assert (Hl : summary (localSummarize contents) = []) by (apply summary_all_space, Hs).
  split; [exact Hl | split; [|split]].
  - intros w. exact (main_file env path rest contents w Ha Hp Hf Hc).
  - intros w. exact (main_file_completes env path rest contents w Ha Hp Hf Hc).
  - intros Ho out. subst out.
    assert (E : localSummarize contents = mkResult [] zero_usage).
    { change (localSummarize contents)
        with (mkResult (summary (localSummarize contents)) zero_usage).
      rewrite Hl. reflexivity. }
    split; [|split; [|split; [|split]]].
    + intros w. rewrite <- E.
      exact (main_file_local env path rest contents w Ha Hp Hf Hc Ho).
    + unfold announce_lines, report_lines, notice. cbn [app summary usage].
      intros H. cbn [In] in H.
      repeat (destruct H as [H|H]; [discriminate H|]). exact H.
    + unfold announce_lines, report_lines. cbn [app In]. do 6 right. left. reflexivity.
    + unfold announce_lines, report_lines. cbn [app In summary]. do 15 right. left.
      reflexivity.
    + unfold announce_lines, report_lines. cbn [app In summary]. do 17 right. left.
      change (len []) with 0%N.
      rewrite (reduction_of_empty_summary (len contents) (len_nonzero contents Hc)). reflexivity.
Qed.

Lemma whitespace_file_is_summarized_witness :
  summary (localSummarize [32; 10; 32]%N) = [] /\
  fst (main (file_env None [32; 10; 32]%N) fresh) = Ok tt.
Proof.
  pose proof (whitespace_file_is_summarized
                (file_env None [32; 10; 32]%N) (lit "input.txt") [] [32; 10; 32]%N
                eq_refl eq_refl eq_refl eq_refl eq_refl) as (A & _ & C & _).
  split; [exact A | exact (C fresh)].
Defined.

(** C10: for some input text the Local summary is strictly longer than the
    text, since each fragment keeps the white space after it and the join adds
    a space; the reduction that the program then reports is negative. *)
Theorem summary_can_outgrow_text :
  exists text,
    length text < length (summary (localSummarize text)) /\
    reduction (len (summary (localSummarize text))) (len text) = Finite true 333 /\
    In (Stdout (lit "Reduction: -33.3%"))
       (console (snd (program (file_env None text) fresh))).
Proof.
  exists (lit "a.b"). split; [vm_compute; lia | split; [vm_compute; reflexivity|]].
  vm_compute. do 17 right. left. reflexivity.
Qed.

End Claims.

(** * Further properties of the code *)

(** ** More about strings and fragments *)

Section FragmentFacts.

Import Regex.

Lemma consumed_app f rest : consumed (f ++ rest) rest = f.
Proof.
  unfold consumed. rewrite length_app, Nat.add_sub.
  induction f as [|c f IH]; simpl.
  - destruct rest; reflexivity.
  - rewrite IH. reflexivity.
Qed.

Lemma dropWhile_idem p s : dropWhile p (dropWhile p s) = dropWhile p s.
Proof. apply dropWhile_stop, dropWhile_false_head. Qed.

Lemma dropWhile_app_stop p s t :
  dropWhile p s <> [] -> dropWhile p (s ++ t) = dropWhile p s ++ t.
Proof.
  induction s as [|c s IH]; simpl; [contradiction|].
  destruct (p c); [exact IH | reflexivity].
Qed.

Lemma dropWhile_nil_all p s : dropWhile p s = [] -> forallb p s = true.
Proof.
  induction s as [|c s IH]; simpl; [reflexivity|].
  destruct (p c); [exact IH | discriminate].
Qed.

Lemma dropWhile_snoc p s c : p c = false -> dropWhile p (s ++ [c]) = dropWhile p s ++ [c].
Proof.
  intros Hc. induction s as [|d s IH]; simpl.
  - rewrite Hc. reflexivity.
  - destruct (p d); [exact IH | reflexivity].
Qed.

Lemma trimStart_trim s : trimStart (trim s) = trim s.
Proof.
  unfold trim, trimEnd.
  pose proof (dropWhile_false_head is_space s) as Hh. fold (trimStart s) in Hh.
  destruct (trimStart s) as [|c t]; [reflexivity|].
  simpl rev. rewrite (dropWhile_snoc _ _ _ Hh), rev_app_distr. simpl.
  unfold trimStart. simpl. rewrite Hh. reflexivity.
Qed.

Lemma trim_idempotent s : trim (trim s) = trim s.
Proof.
  unfold trim at 1. rewrite trimStart_trim.
  unfold trim, trimEnd. rewrite rev_involutive, dropWhile_idem. reflexivity.
Qed.

Lemma not_all_space_visible s :
  forallb is_space s = false -> existsb visible s = true.
Proof.
  induction s as [|c s IH]; simpl; [discriminate|]. unfold visible at 1.
  destruct (is_space c); simpl; [exact IH | reflexivity].
Qed.

Lemma matches_some s : existsb non_term s = true -> matches s <> [].
Proof.
  induction s as [|c s IH]; simpl; [discriminate|].
  rewrite matches_cons. destruct (non_term c); simpl; [discriminate | exact IH].
Qed.

Lemma term_in_dropWhile s :
  existsb is_term s = true -> dropWhile non_term s <> [].
Proof.
  induction s as [|c s IH]; simpl; [discriminate|]. unfold non_term at 1.
  destruct (is_term c); simpl; [discriminate | exact IH].
Qed.

Lemma starts_sentence_head s :
  starts_sentence s = true ->
  exists c t, s = c :: t /\ non_term c = true /\ is_space c = false.
Proof.
  destruct s as [|c t]; simpl; [discriminate|]. intros H.
  apply andb_prop in H as [H1 H2]. apply negb_true_iff in H2.
  exists c, t. repeat split; assumption.
Qed.

(** Where a sentence ends and the next one starts, the match of the pattern
    ends too. *)
Lemma after_fragment_app f rest :
  is_sentence f = true -> rest = [] \/ starts_sentence rest = true ->
  after_fragment (f ++ rest) = rest.
Proof.
  unfold is_sentence. intros H Hr.
  apply andb_prop in H as [H Hm]. apply andb_prop in H as [Hs Ht].
  assert (Ha : after_fragment f = []).
  { rewrite sentence_greedy in Hm. destruct f as [|c f]; [discriminate|].
    destruct (non_term c); [|discriminate].
    destruct (after_fragment (c :: f)); [reflexivity | discriminate]. }
  assert (Hstop : dropWhile is_space (dropWhile is_term rest) = rest).
  { destruct Hr as [->|Hr]; [reflexivity|].
    destruct (starts_sentence_head _ Hr) as (c & t & -> & Hc & Hsp).
    unfold non_term in Hc. apply negb_true_iff in Hc.
    simpl. rewrite Hc. simpl. rewrite Hsp. reflexivity. }
  unfold after_fragment in *.
  rewrite (dropWhile_app_stop _ _ _ (term_in_dropWhile _ Ht)).
  destruct (dropWhile is_term (dropWhile non_term f)) as [|d l] eqn:E.
  - rewrite (dropWhile_app_all _ _ _ (dropWhile_nil_all _ _ E)). exact Hstop.
  - rewrite dropWhile_app_stop by (rewrite E; discriminate). rewrite E.
    rewrite (dropWhile_app_all _ _ _ (dropWhile_nil_all _ _ Ha)).
    destruct Hr as [->|Hr]; [reflexivity|].
    destruct (starts_sentence_head _ Hr) as (c & t & -> & _ & Hsp).
    simpl. rewrite Hsp. reflexivity.
Qed.

Lemma matches_sentence f rest :
  is_sentence f = true -> rest = [] \/ starts_sentence rest = true ->
  matches (f ++ rest) = f :: matches rest.
Proof.
  intros Hf Hr. pose proof (after_fragment_app f rest Hf Hr) as Ha.
  unfold is_sentence in Hf. apply andb_prop in Hf as [Hf _].
  apply andb_prop in Hf as [Hs _].
  destruct (starts_sentence_head _ Hs) as (c & t & -> & Hc & _).
  change ((c :: t) ++ rest) with (c :: (t ++ rest)) in *.
  rewrite matches_cons, Hc, Ha.
  change (c :: (t ++ rest)) with ((c :: t) ++ rest).
  rewrite consumed_app. reflexivity.
Qed.

Lemma starts_sentence_app f rest :
  starts_sentence f = true -> starts_sentence (f ++ rest) = true.
Proof. destruct f; [discriminate | intros H; exact H]. Qed.

Lemma is_sentence_starts f : is_sentence f = true -> starts_sentence f = true.
Proof.
  unfold is_sentence. intros H. apply andb_prop in H as [H _].
  apply andb_prop in H as [H _]. exact H.
Qed.

Lemma starts_sentence_visible s :
  starts_sentence s = true -> existsb visible s = true.
Proof.
  intros H. destruct (starts_sentence_head _ H) as (c & t & -> & _ & Hsp).
  simpl. unfold visible at 1. rewrite Hsp. reflexivity.
Qed.

Lemma dropWhile_split p s :
  exists pre, s = pre ++ dropWhile p s /\ forallb p pre = true.
Proof.
  induction s as [|c s (pre & E & H)]; simpl.
  - exists []. split; reflexivity.
  - destruct (p c) eqn:Ec.
    + exists (c :: pre). simpl. rewrite <- E, Ec, H. split; reflexivity.
    + exists []. split; reflexivity.
Qed.

Lemma forallb_rev (p : char16 -> bool) s :
  forallb p s = true -> forallb p (rev s) = true.
Proof.
  intros H. apply forallb_forall. intros x Hx. apply in_rev in Hx.
  exact (proj1 (forallb_forall p s) H x Hx).
Qed.

(** White space at the end of a text does not survive [trim]. *)
Lemma trim_app_spaces x sp : forallb is_space sp = true -> trim (x ++ sp) = trim x.
Proof.
  intros H. unfold trim, trimStart, trimEnd.
  destruct (dropWhile is_space x) as [|c d] eqn:E.
  - rewrite (dropWhile_app_all _ _ _ (dropWhile_nil_all _ _ E)).
    rewrite (dropWhile_all _ _ H). reflexivity.
  - rewrite dropWhile_app_stop by (rewrite E; discriminate). rewrite E.
    rewrite rev_app_distr, (dropWhile_app_all _ _ _ (forallb_rev _ _ H)). reflexivity.
Qed.

Lemma ends_with_term_suffix pre d :
  d <> [] -> forallb is_term d = true -> ends_with_term (pre ++ d) = true.
Proof.
  intros Hne H. unfold ends_with_term. rewrite rev_app_distr.
  destruct (rev d) as [|t d'] eqn:E.
  - exfalso. apply Hne. rewrite <- (rev_involutive d), E. reflexivity.
  - simpl. apply (proj1 (forallb_forall is_term d) H). apply in_rev.
    rewrite E. left. reflexivity.
Qed.

(** A sentence is the start of the fragment that begins with it; what the
    fragment takes beyond the sentence is white space, unless terminators
    follow the terminators that end the sentence. *)
Lemma matches_sentence_then f rest :
  is_sentence f = true -> ends_with_term f && starts_with_term rest = false ->
  exists sp more, forallb is_space sp = true /\ matches (f ++ rest) = (f ++ sp) :: more.
Proof.
  unfold is_sentence. intros H Hg.
  apply andb_prop in H as [H Hm]. apply andb_prop in H as [Hs Ht].
  assert (Ha : after_fragment f = []).
  { rewrite sentence_greedy in Hm. destruct f as [|c f]; [discriminate|].
    destruct (non_term c); [|discriminate].
    destruct (after_fragment (c :: f)); [reflexivity | discriminate]. }
  assert (Hafter : after_fragment (f ++ rest) = dropWhile is_space rest).
  { unfold after_fragment in *.
    rewrite (dropWhile_app_stop _ _ _ (term_in_dropWhile _ Ht)).
    destruct (dropWhile is_term (dropWhile non_term f)) as [|d l] eqn:E.
    - assert (He : ends_with_term f = true).
      { destruct (dropWhile_suffix non_term f) as [pre Ep]. rewrite Ep.
        apply ends_with_term_suffix;
          [exact (term_in_dropWhile _ Ht) | exact (dropWhile_nil_all _ _ E)]. }
      rewrite He in Hg. simpl in Hg.
      rewrite (dropWhile_app_all _ _ _ (dropWhile_nil_all _ _ E)).
      rewrite (dropWhile_stop is_term rest); [reflexivity|].
      destruct rest; [exact I | exact Hg].
    - rewrite dropWhile_app_stop by (rewrite E; discriminate). rewrite E.
      rewrite (dropWhile_app_all _ _ _ (dropWhile_nil_all _ _ Ha)). reflexivity. }
  destruct (dropWhile_split is_space rest) as (sp & Er & Hsp).
  exists sp, (matches (dropWhile is_space rest)). split; [exact Hsp|].
  destruct (starts_sentence_head _ Hs) as (c & t & -> & Hc & _).
  change ((c :: t) ++ rest) with (c :: (t ++ rest)) in *.
  rewrite matches_cons, Hc, Hafter. f_equal.
  change (c :: (t ++ rest)) with ((c :: t) ++ rest).
  rewrite Er at 1. rewrite app_assoc. apply consumed_app.
Qed.

End FragmentFacts.

(** ** The Local strategy, further *)

Section LocalProperties.

Import Regex.

(** X1: the fragments that the pattern finds are never empty, each begins
    with a unit that is not a terminator, and together they hold every
    non-terminator unit of the text, in order: the loop can only lose
    terminators. *)
Theorem fragments_keep_text s :
  Forall (fun f => exists c t, f = c :: t /\ non_term c = true) (matches s) /\
  filter non_term (concat (matches s)) = filter non_term s.
Proof.
  remember (length s) as n eqn:Hn. revert s Hn.
  induction n as [n IH] using lt_wf_ind. intros s Hn.
  destruct s as [|c s]; [rewrite matches_nil; split; [constructor | reflexivity]|].
  rewrite matches_cons. destruct (non_term c) eqn:Ec.
  - assert (Hs : length (after_fragment (c :: s)) < n).
    { subst n. apply sentence_shorter. rewrite sentence_greedy, Ec. reflexivity. }
    destruct (IH _ Hs _ eq_refl) as [IH1 IH2].
    destruct (after_fragment_suffix (c :: s)) as [pre E].
    assert (Hpre : exists t, pre = c :: t).
    { destruct pre as [|d t].
      - simpl in E. rewrite <- E in Hs. subst n. lia.
      - injection E as -> _. exists t. reflexivity. }
    destruct Hpre as [t ->].
    assert (Ec' : consumed (c :: s) (after_fragment (c :: s)) = c :: t).
    { rewrite E at 1. apply consumed_app. }
    rewrite Ec'. split.
    + constructor; [exists c, t; split; [reflexivity | exact Ec] | exact IH1].
    + rewrite concat_cons, filter_app, IH2, <- filter_app, <- E. reflexivity.
  - assert (Hs : length s < n) by (subst n; simpl; lia).
    destruct (IH _ Hs _ eq_refl) as [IH1 IH2]. split; [exact IH1|].
    simpl. rewrite Ec. exact IH2.
Qed.

(** X2: a sentence in front of a text that starts a new sentence (or of
    nothing) is the first fragment, and the rest is matched as if it stood
    alone. *)
Theorem sentence_is_first_fragment f rest :
  is_sentence f = true -> rest = [] \/ starts_sentence rest = true ->
  matches (f ++ rest) = f :: matches rest /\
  exists more, sentences_of (f ++ rest) = f :: more.
Proof.
  intros Hf Hr. pose proof (matches_sentence f rest Hf Hr) as E.
  split; [exact E|]. exists (matches rest).
  unfold sentences_of, match_g. rewrite E. reflexivity.
Qed.

Lemma sentence_is_first_fragment_witness :
  matches (lit "Hello world. This is a test.")
  = lit "Hello world. " :: matches (lit "This is a test.").
Proof.
  apply (proj1 (sentence_is_first_fragment (lit "Hello world. ") (lit "This is a test.")
                  eq_refl (or_intror eq_refl))).
Defined.

(** X3: of a text that begins with three sentences, the summary is those
    three, joined with a space and trimmed, whatever follows them; the one
    exception is a terminator right after the terminators that end the third
    sentence, which belongs to the third fragment. *)
Theorem first_three_sentences f1 f2 f3 rest :
  is_sentence f1 = true -> is_sentence f2 = true -> is_sentence f3 = true ->
  ends_with_term f3 && starts_with_term rest = false ->
  summary (localSummarize (f1 ++ f2 ++ f3 ++ rest))
  = trim (f1 ++ lit " " ++ f2 ++ lit " " ++ f3).
Proof.
  intros H1 H2 H3 Hr.
  pose proof (is_sentence_starts _ H1) as S1.
  pose proof (is_sentence_starts _ H2) as S2.
  pose proof (is_sentence_starts _ H3) as S3.
  destruct (matches_sentence_then f3 rest H3 Hr) as (sp & more & Hsp & E3).
  assert (E : sentences_of (f1 ++ f2 ++ f3 ++ rest) = f1 :: f2 :: (f3 ++ sp) :: more).
  { unfold sentences_of, match_g.
    rewrite (matches_sentence f1 (f2 ++ f3 ++ rest) H1
               (or_intror (starts_sentence_app _ _ S2))).
    rewrite (matches_sentence f2 (f3 ++ rest) H2
               (or_intror (starts_sentence_app _ _ S3))).
    rewrite E3. reflexivity. }
  unfold localSummarize, selection_of. rewrite E. cbn [slice0 firstn join summary].
  assert (T : trim (f1 ++ lit " " ++ f2 ++ lit " " ++ f3 ++ sp)
              = trim (f1 ++ lit " " ++ f2 ++ lit " " ++ f3)).
  { rewrite <- (trim_app_spaces (f1 ++ lit " " ++ f2 ++ lit " " ++ f3) sp Hsp).
    rewrite <- !app_assoc. reflexivity. }
  rewrite T.
  assert (V : trim (f1 ++ lit " " ++ f2 ++ lit " " ++ f3) <> []).
  { apply trim_some, starts_sentence_visible, starts_sentence_app, S1. }
  destruct (trim (f1 ++ lit " " ++ f2 ++ lit " " ++ f3)); [contradiction | reflexivity].
Qed.

Lemma first_three_sentences_witness :
  summary (localSummarize (lit "a. b. c. !d"))
  = trim (lit "a. " ++ lit " " ++ lit "b. " ++ lit " " ++ lit "c. ").
Proof.
  apply (first_three_sentences (lit "a. ") (lit "b. ") (lit "c. ") (lit "!d")
           eq_refl eq_refl eq_refl eq_refl).
Defined.

(** X4: the summary never begins or ends with white space: trimming it again
    changes nothing. *)
Theorem summary_is_trimmed text :
  trim (summary (localSummarize text)) = summary (localSummarize text).
Proof.
  unfold localSummarize, selection_of. cbn [summary].
  destruct (truthy _); apply trim_idempotent.
Qed.

(** X5: the Local summary is empty exactly when the text has nothing but
    white space (the empty text included). *)
Theorem summary_empty_iff_blank text :
  summary (localSummarize text) = [] <-> forallb is_space text = true.
Proof.
  split.
  - intros H. destruct (forallb is_space text) eqn:E; [reflexivity|]. exfalso.
    apply not_all_space_visible, trim_some, summary_nonempty in E. exact (E H).
  - apply summary_all_space.
Qed.

(** X6: terminators in front of a text that starts a sentence leave no trace
    in the summary. *)
Theorem leading_terminators_dropped marks text :
  forallb is_term marks = true -> starts_sentence text = true ->
  summary (localSummarize (marks ++ text)) = summary (localSummarize text).
Proof.
  intros Hm Hs.
  destruct (starts_sentence_head _ Hs) as (c & t & -> & Hc & Hsp).
  assert (Hne : matches (c :: t) <> []).
  { apply matches_some. simpl. rewrite Hc. reflexivity. }
  assert (E : sentences_of (marks ++ c :: t) = sentences_of (c :: t)).
  { unfold sentences_of, match_g. rewrite (matches_skip _ _ Hm).
    destruct (matches (c :: t)); [contradiction | reflexivity]. }
  assert (Hsel : selection_of (c :: t) <> []).
  { unfold selection_of, sentences_of, match_g.
    rewrite matches_cons, Hc.
    destruct (after_fragment_suffix (c :: t)) as [pre Ep].
    remember (after_fragment (c :: t)) as r eqn:Er.
    assert (Hpre : exists u, consumed (c :: t) r = c :: u).
    { destruct pre as [|d u].
      - exfalso. simpl in Ep.
        assert (L : length r < length (c :: t)).
        { subst r. apply sentence_shorter. rewrite sentence_greedy, Hc. reflexivity. }
        rewrite <- Ep in L. lia.
      - injection Ep as Ed Ep'. subst d. exists u.
        change (c :: t) with ([c] ++ t). rewrite Ep'.
        change ([c] ++ u ++ r) with ((c :: u) ++ r). apply consumed_app. }
    destruct Hpre as [u ->].
    apply trim_some. unfold slice0.
    destruct (matches r) as [|g l]; simpl; unfold visible; rewrite Hsp; reflexivity. }
  unfold localSummarize. cbn [summary].
  assert (E2 : selection_of (marks ++ c :: t) = selection_of (c :: t)).
  { unfold selection_of. rewrite E. reflexivity. }
  rewrite E2. destruct (selection_of (c :: t)); [contradiction | reflexivity].
Qed.

Lemma leading_terminators_dropped_witness :
  summary (localSummarize (lit "...and then. Done."))
  = summary (localSummarize (lit "and then. Done.")).
Proof.
  apply (leading_terminators_dropped (lit "...") (lit "and then. Done.")
           eq_refl eq_refl).
Defined.

End LocalProperties.

(** ** The orchestration, further *)

Section OrchestrationProperties.

Lemma summarizeText_outcome env text w :
  exists r w',
    summarizeText env text w = (Ok r, w') /\
    console w' = console w /\
    (network w' = network w \/ network w' = network w ++ [request_for text]) /\
    (openai env = None -> network w' = network w).
Proof.
  unfold summarizeText. destruct (openai env) as [client|] eqn:Ho.
  - destruct (summarizeWithOpenAI_once env client text w Ho) as [Hn Hc].
    unfold try_catch.
    destruct (summarizeWithOpenAI env text w) as [[r|e|n] w'] eqn:E; simpl in Hn, Hc.
    + exists r, w'. repeat split; [exact Hc | right; exact Hn | discriminate].
    + exists (localSummarize text), w'.
      repeat split; [exact Hc | right; exact Hn | discriminate].
    + exfalso. exact (summarizeWithOpenAI_no_exit _ _ _ _ _ E).
  - exists (localSummarize text), w. repeat split. left. reflexivity.
Qed.

(** X7: whatever the endpoint does, [summarizeText] returns a result: it
    neither throws nor ends the process, it prints nothing, and it sends no
    request or exactly one. *)
Theorem summarizeText_never_fails env text w :
  exists r w',
    summarizeText env text w = (Ok r, w') /\
    console w' = console w /\
    (network w' = network w \/ network w' = network w ++ [request_for text]).
Proof.
  destruct (summarizeText_outcome env text w) as (r & w' & E & Hc & Hn & _).
  exists r, w'. repeat split; assumption.
Qed.

(** X8: when Remote is configured and the endpoint answers with at least one
    choice, the summary is the content of the first choice as it came, the
    usage is the one reported, or all zeros when the answer has none, and the
    Local strategy has no part in the result. *)
Theorem remote_answer_is_returned env client text w first others reported :
  openai env = Some client ->
  endpoint env (network w) (request_for text)
  = inr (mkCompletion (first :: others) reported) ->
  summarizeText env text w =
  (Ok (mkResult (content first)
                (match reported with Some u => u | None => zero_usage end)),
   mkWorld (console w) (network w ++ [request_for text])).
Proof.
  intros Ho He.
  unfold summarizeText, try_catch, summarizeWithOpenAI, bind, chat_completions_create.
  rewrite Ho, He. reflexivity.
Qed.

Lemma remote_answer_is_returned_witness :
  summarizeText
    (answering_env (mkCompletion [mkMessage (lit "assistant") (lit "Short.")] None)
                   scenario1)
    scenario1 fresh
  = (Ok (mkResult (lit "Short.") zero_usage), mkWorld [] [request_for scenario1]).
Proof.
  apply (remote_answer_is_returned
           (answering_env (mkCompletion [mkMessage (lit "assistant") (lit "Short.")] None)
                          scenario1)
           (mkClient (lit "sk-test")) scenario1 fresh
           (mkMessage (lit "assistant") (lit "Short.")) [] None eq_refl eq_refl).
Defined.

(** X9: an answer without any choice counts as a failure: reading the first
    choice throws, and the result is the Local one, after the one request. *)
Theorem answer_without_choice_falls_back env client text w reported :
  openai env = Some client ->
  endpoint env (network w) (request_for text) = inr (mkCompletion [] reported) ->
  summarizeText env text w =
  (Ok (localSummarize text), mkWorld (console w) (network w ++ [request_for text])).
Proof.
  intros Ho He.
  unfold summarizeText, try_catch, summarizeWithOpenAI, bind, chat_completions_create.
  rewrite Ho, He. reflexivity.
Qed.

Lemma answer_without_choice_falls_back_witness :
  summarizeText (answering_env (mkCompletion [] None) scenario1) scenario1 fresh
  = (Ok (localSummarize scenario1), mkWorld [] [request_for scenario1]).
Proof.
  apply (answer_without_choice_falls_back
           (answering_env (mkCompletion [] None) scenario1)
           (mkClient (lit "sk-test")) scenario1 fresh None eq_refl eq_refl).
Defined.

(** X10: a credential that is set to the empty string is no credential: the
    client is not built, and the Local strategy answers without a request. *)
Theorem empty_key_is_unconfigured env text w :
  OPENAI_API_KEY env = Some [] ->
  openai env = None /\
  summarizeText env text w = (Ok (localSummarize text), w).
Proof.
  intros Hk. assert (Ho : openai env = None) by (unfold openai; rewrite Hk; reflexivity).
  split; [exact Ho | exact (summarizeText_local env text w Ho)].
Qed.

Lemma empty_key_is_unconfigured_witness :
  summarizeText (file_env (Some []) scenario1) scenario1 fresh
  = (Ok (localSummarize scenario1), fresh).
Proof.
  apply (proj2 (empty_key_is_unconfigured (file_env (Some []) scenario1) scenario1 fresh
                  eq_refl)).
Defined.

End OrchestrationProperties.

(** ** The program, further *)

Section ProgramProperties.

Lemma main_split env w : main env w = (userText <- read_input env ;; proceed env userText) w.
Proof. reflexivity. Qed.

Lemma read_input_interactive env :
  interactive env = true -> read_input env = read_interactive env.
Proof.
  unfold interactive, read_input. destruct (skipn 2 (argv env)) as [|path rest].
  - reflexivity.
  - destruct (truthy path); [discriminate | reflexivity].
Qed.

Lemma read_interactive_quiet env w :
  closes_quietly env = true ->
  read_interactive env w = (Ok (trim (typed_text env)), printed w prompt_lines).
Proof.
  unfold closes_quietly, read_interactive. intros H.
  rewrite !bind_log, !printed_printed. unfold bind, try_catch, throw.
  destruct (stdin_error env) as [e|]; [|reflexivity].
  apply negb_true_iff in H. rewrite H. reflexivity.
Qed.

Lemma read_interactive_failure env w e :
  stdin_error env = Some e -> not_use_after_close e = true ->
  read_interactive env w = (Throw e, printed w prompt_lines).
Proof.
  unfold read_interactive. intros He Hn.
  rewrite !bind_log, !printed_printed. unfold bind, try_catch, throw.
  rewrite He, Hn. reflexivity.
Qed.

Lemma typed_all_space lines acc :
  forallb is_space acc = true -> forallb (forallb is_space) lines = true ->
  forallb is_space (fold_left (fun acc line => acc ++ line ++ [NL]) lines acc) = true.
Proof.
  revert acc. induction lines as [|l lines IH]; simpl; intros acc Ha Hl; [exact Ha|].
  apply andb_prop in Hl as [H1 H2]. apply IH; [|exact H2].
  rewrite !forallb_app, Ha, H1. reflexivity.
Qed.

(** The text comes in without any request, and from nowhere else than a
    return, a throw or [process.exit(1)]. *)
Lemma read_input_outcome env w :
  network (snd (read_input env w)) = network w /\
  ((exists text, fst (read_input env w) = Ok text) \/
   (exists e, fst (read_input env w) = Throw e) \/
   fst (read_input env w) = Exit 1).
Proof.
  assert (I : network (snd (read_interactive env w)) = network w /\
              ((exists text, fst (read_interactive env w) = Ok text) \/
               (exists e, fst (read_interactive env w) = Throw e) \/
               fst (read_interactive env w) = Exit 1)).
  { destruct (closes_quietly env) eqn:Q.
    - rewrite (read_interactive_quiet env w Q). split; [reflexivity|].
      left. eexists. reflexivity.
    - unfold closes_quietly in Q. destruct (stdin_error env) as [e|] eqn:He; [|discriminate].
      apply negb_false_iff in Q. rewrite (read_interactive_failure env w e He Q).
      split; [reflexivity|]. right. left. exists e. reflexivity. }
  unfold read_input. destruct (skipn 2 (argv env)) as [|path rest]; [exact I|].
  destruct (truthy path); [|exact I].
  unfold read_file. destruct (readFileSync env path) as [err|contents].
  - split; [reflexivity|]. right. right. reflexivity.
  - split; [reflexivity|]. left. exists contents. reflexivity.
Qed.

(** Once the text is there, the run ends by a return or by [process.exit(0)],
    after one request at most. *)
Lemma proceed_outcome env userText w :
  (fst (proceed env userText w) = Ok tt \/ fst (proceed env userText w) = Exit 0) /\
  (network (snd (proceed env userText w)) = network w \/
   network (snd (proceed env userText w)) = network w ++ [request_for userText]) /\
  (openai env = None -> network (snd (proceed env userText w)) = network w).
Proof.
  unfold proceed. destruct (truthy userText); cbn [negb]; cbv beta iota.
  - unfold bind. rewrite announce_run.
    destruct (summarizeText_outcome env userText (printed w announce_lines))
      as (r & w' & E & _ & Hn & Ho).
    rewrite E, report_run. simpl. repeat split; [left; reflexivity | exact Hn | exact Ho].
  - simpl. repeat split; [right; reflexivity | left; reflexivity].
Qed.

Lemma program_split env w :
  program env w =
  match read_input env w with
  | (Ok text, w1) =>
      match proceed env text w1 with
      | (Throw e, w2) => (console_error_inspect e ;; process_exit 1) w2
      | r => r
      end
  | (Throw e, w1) => (console_error_inspect e ;; process_exit 1) w1
  | (Exit n, w1) => (Exit n, w1)
  end.
Proof.
  unfold program, try_catch. rewrite main_split. unfold bind at 1.
  destruct (read_input env w) as [[text|e|n] w1]; reflexivity.
Qed.

(** X11: when the file named on the command line cannot be read, the program
    prints one line on standard error that names the path and gives the
    reason, and ends with status 1; nothing is summarized and no request is
    sent. *)
Theorem unreadable_file_exits_1 env path rest err w :
  skipn 2 (argv env) = path :: rest -> truthy path = true ->
  readFileSync env path = inl err ->
  program env w =
  (Exit 1,
   mkWorld (console w ++
            [Stderr (lit "Unable to read file: " ++ path ++ lit " " ++ message err)])
           (network w)).
Proof.
  intros Ha Hp Hf. unfold program, try_catch. rewrite main_split.
  unfold bind at 1. unfold read_input. rewrite Ha, Hp. unfold read_file. rewrite Hf.
  reflexivity.
Qed.

Lemma unreadable_file_exits_1_witness :
  fst (program (mkEnv None (fun _ _ => inl unavailable)
                      [lit "node"; lit "text-summarizer.js"; lit "missing.txt"]
                      (fun _ => inl (mkError (Some (lit "ENOENT")) (lit "no such file")))
                      [] None) fresh) = Exit 1.
Proof.
  rewrite (unreadable_file_exits_1
             (mkEnv None (fun _ _ => inl unavailable)
                    [lit "node"; lit "text-summarizer.js"; lit "missing.txt"]
                    (fun _ => inl (mkError (Some (lit "ENOENT")) (lit "no such file")))
                    [] None)
             (lit "missing.txt") []
             (mkError (Some (lit "ENOENT")) (lit "no such file")) fresh
             eq_refl eq_refl eq_refl).
  reflexivity.
Defined.

(** X12: without a file argument, when the stream closes and every line typed
    was blank (or none was typed), the program prints the prompt and the
    notice and ends with status 0; nothing is summarized and no request is
    sent. *)
Theorem blank_typing_exits_0 env w :
  interactive env = true -> closes_quietly env = true ->
  forallb (forallb is_space) (stdin_lines env) = true ->
  program env w = (Exit 0, printed w (prompt_lines ++ [Stdout notice])).
Proof.
  intros Hi Hq Hl. unfold program, try_catch. rewrite main_split.
  unfold bind at 1. rewrite (read_input_interactive env Hi), (read_interactive_quiet env w Hq).
  assert (E : trim (typed_text env) = []).
  { apply trim_all_space. unfold typed_text. apply typed_all_space; [reflexivity | exact Hl]. }
  rewrite E. unfold proceed. cbn [negb truthy]. cbv beta iota.
  rewrite bind_log, printed_printed. reflexivity.
Qed.

Lemma blank_typing_exits_0_witness :
  program (typing_env None [lit "  "; []] None) fresh
  = (Exit 0, printed fresh (prompt_lines ++ [Stdout notice])).
Proof.
  apply (blank_typing_exits_0 (typing_env None [lit "  "; []] None) fresh
           eq_refl eq_refl eq_refl).
Defined.

(** X13: without a file argument, when the stream fails with an error whose
    code is not ERR_USE_AFTER_CLOSE, the error is thrown on: after the prompt
    the program hands that same error to [console.error], prints nothing
    else, sends no request and ends with status 1, whatever had been
    typed. *)
Theorem stream_error_exits_1 env e w :
  interactive env = true -> stdin_error env = Some e ->
  not_use_after_close e = true ->
  program env w =
  (Exit 1, mkWorld (console w ++ prompt_lines ++ [StderrInspect e]) (network w)).
Proof.
  intros Hi He Hn. unfold program, try_catch. rewrite main_split.
  unfold bind at 1.
  rewrite (read_input_interactive env Hi), (read_interactive_failure env w e He Hn).
  unfold bind, console_error_inspect, process_exit, printed. simpl.
  rewrite <- app_assoc. reflexivity.
Qed.

Lemma stream_error_exits_1_witness :
  fst (program (typing_env None [lit "Some text."] (Some unavailable)) fresh) = Exit 1.
Proof.
  rewrite (stream_error_exits_1
             (typing_env None [lit "Some text."] (Some unavailable)) unavailable fresh
             eq_refl eq_refl eq_refl).
  reflexivity.
Defined.

(** X14: without a file argument and without a credential, when the stream
    closes and something visible was typed, the text that is summarized is
    the trimmed text, the program runs to its end, and the summary it prints
    is not empty. *)
Theorem typed_text_summary_nonempty env w :
  interactive env = true -> closes_quietly env = true -> openai env = None ->
  existsb visible (typed_text env) = true ->
  program env w =
  (Ok tt, printed w (prompt_lines ++ announce_lines ++
                     report_lines (trim (typed_text env))
                                  (localSummarize (trim (typed_text env))))) /\
  summary (localSummarize (trim (typed_text env))) <> [].
Proof.
  intros Hi Hq Ho Hv. pose proof (trim_some _ Hv) as Hne. split.
  - unfold program, try_catch. rewrite main_split. unfold bind at 1.
    rewrite (read_input_interactive env Hi), (read_interactive_quiet env w Hq).
    unfold proceed. destruct (trim (typed_text env)) as [|c t] eqn:E; [contradiction|].
    cbn [negb truthy]. cbv beta iota. unfold bind.
    rewrite announce_run, (summarizeText_local _ _ _ Ho), report_run, !printed_printed.
    reflexivity.
  - apply summary_nonempty. rewrite trim_idempotent. exact Hne.
Qed.

Lemma typed_text_summary_nonempty_witness :
  summary (localSummarize
             (trim (typed_text (typing_env None [lit " Hello world."; lit "Bye. "] None))))
  <> [].
Proof.
  apply (proj2 (typed_text_summary_nonempty
                  (typing_env None [lit " Hello world."; lit "Bye. "] None) fresh
                  eq_refl eq_refl eq_refl eq_refl)).
Defined.

(** X15: the program never ends by an uncaught error: it runs to its end, or
    it leaves with status 0 or 1. *)
Theorem program_ends_cleanly env w :
  fst (program env w) = Ok tt \/
  fst (program env w) = Exit 0 \/
  fst (program env w) = Exit 1.
Proof.
  rewrite program_split.
  destruct (read_input_outcome env w) as [_ H].
  destruct (read_input env w) as [[text|e|n] w1]; simpl in H.
  - destruct (proceed_outcome env text w1) as [P _].
    destruct (proceed env text w1) as [o w2]. simpl in P.
    destruct P as [->| ->]; [left | right; left]; reflexivity.
  - right. right. reflexivity.
  - destruct H as [[t H]|[[e H]|H]]; try discriminate H.
    injection H as ->. right. right. reflexivity.
Qed.

(** X16: a run of the program sends one request at most, and none at all
    without a credential. *)
Theorem program_sends_one_request_at_most env w :
  (network (snd (program env w)) = network w \/
   exists text, network (snd (program env w)) = network w ++ [request_for text]) /\
  (openai env = None -> network (snd (program env w)) = network w).
Proof.
  rewrite program_split.
  destruct (read_input_outcome env w) as [N _].
  destruct (read_input env w) as [[text|e|n] w1]; simpl in N.
  - destruct (proceed_outcome env text w1) as (_ & P & Q).
    rewrite N in P, Q.
    destruct (proceed env text w1) as [[u|e|n] w2]; simpl in P, Q |- *;
      (split; [|exact Q]);
      (destruct P as [P|P]; [left; exact P | right; exists text; exact P]).
  - simpl. split; [left; exact N | intros _; exact N].
  - simpl. split; [left; exact N | intros _; exact N].
Qed.

End ProgramProperties.

(** ** The report, further *)

Section ReportProperties.

Lemma ws_runs_word w s :
  forallb visible w = true -> ws_runs false (w ++ s) = ws_runs false s.
Proof.
  induction w as [|c w IH]; simpl; [reflexivity|]. intros H.
  apply andb_prop in H as [Hc Hw]. unfold visible in Hc. apply negb_true_iff in Hc.
  rewrite Hc. exact (IH Hw).
Qed.

Lemma ws_runs_after_space w s :
  truthy w = true -> forallb visible w = true ->
  ws_runs true (w ++ s) = ws_runs false (w ++ s).
Proof.
  destruct w as [|c w]; [discriminate|]. simpl. intros _ H.
  apply andb_prop in H as [Hc _]. unfold visible in Hc. apply negb_true_iff in Hc.
  rewrite Hc. reflexivity.
Qed.

Lemma join_head (w : jsstring) ws :
  exists s, join (lit " ") (w :: ws) = w ++ s.
Proof.
  destruct ws as [|w2 ws]; simpl.
  - exists []. rewrite app_nil_r. reflexivity.
  - eexists. reflexivity.
Qed.

(** X18: for words without white space in them, put together with single
    spaces, the count of words that the report shows is the number of
    words. *)
Theorem words_are_counted words :
  words <> [] ->
  forallb (fun w => truthy w && forallb visible w) words = true ->
  split_ws_length (join (lit " ") words) = N.of_nat (length words).
Proof.
  intros Hne H. destruct words as [|w ws]; [contradiction|]. clear Hne.
  unfold split_ws_length. simpl length. rewrite Nat2N.inj_succ. f_equal.
  revert w H. induction ws as [|w2 ws IH]; intros w H.
  - simpl in H. rewrite andb_true_r in H. apply andb_prop in H as [_ Hv].
    simpl join. rewrite <- (app_nil_r w), (ws_runs_word _ _ Hv). reflexivity.
  - change (forallb (fun w => truthy w && forallb visible w) (w :: w2 :: ws))
      with ((truthy w && forallb visible w)
            && forallb (fun w => truthy w && forallb visible w) (w2 :: ws)) in H.
    apply andb_prop in H as [Hw Hrest]. apply andb_prop in Hw as [_ Hv].
    change (join (lit " ") (w :: w2 :: ws))
      with (w ++ lit " " ++ join (lit " ") (w2 :: ws)).
    rewrite (ws_runs_word _ _ Hv).
    pose proof (IH w2 Hrest) as IH2.
    pose proof Hrest as H2. simpl in H2. apply andb_prop in H2 as [H2 _].
    apply andb_prop in H2 as [T2 V2].
    destruct (join_head w2 ws) as [tl E]. rewrite E in *.
    change (lit " " ++ w2 ++ tl) with (32%N :: (w2 ++ tl)).
    cbn [ws_runs]. change (is_space 32%N) with true. cbv iota.
    rewrite (ws_runs_after_space _ _ T2 V2), IH2.
    simpl length. rewrite (Nat2N.inj_succ (length ws)). lia.
Qed.

Lemma words_are_counted_witness :
  split_ws_length (lit "Hello world. Bye.") = 3%N.
Proof.
  apply (words_are_counted [lit "Hello"; lit "world."; lit "Bye."]
           ltac:(discriminate) eq_refl).
Defined.

End ReportProperties.

